(** * Geo-Cam: camera lifecycle, position display and capture compositor

    A shallow embedding of the page script of devonepao/geo-cam.  Two
    revisions of the script are in the repository: the current one, with
    the portrait and the landscape overlay ([capturePhoto]), and an older
    one with the portrait band only ([ScriptJs.capturePhoto]).  They agree
    on everything but [capturePhoto] and the prefix of the accuracy text.

    - JavaScript Numbers are binary64 values.  A finite one is represented
      by the rational it denotes, and every arithmetic operation rounds
      its exact result to 53 significant bits, ties to even ([F64]).
    - Strings are byte strings holding the UTF-8 encoding of the source
      text.
    - The script's globals and the DOM nodes it touches form the record
      [Page]; the capture device, the pending [getUserMedia] requests and
      the log of host calls form the rest of [World].
    - An [async] function is split at its [await]: the part before it runs
      when the function is called, the part after it when the host settles
      the request. *)

From Stdlib Require Import ZArith QArith Qround Qpower Lia Lqa Bool List.
From Stdlib Require Import String Ascii DecimalString DecimalPos DecimalN.
Import ListNotations.

Local Open Scope Q_scope.

(** ** Binary64 arithmetic *)

Module F64.

Definition pow2 (k : Z) : Q := 2 ^ k.

(** Floor of the binary logarithm of a positive rational. *)
Definition ilog2 (x : Q) : Z :=
  let e0 := (Z.log2 (Qnum x) - Z.log2 (Zpos (Qden x)))%Z in
  if Qle_bool (pow2 e0) x then e0 else (e0 - 1)%Z.

(** Nearest integer, ties to even. *)
Definition rne (y : Q) : Z :=
  let q := Qfloor y in
  match Qcompare (y - inject_Z q) (1 # 2) with
  | Lt => q
  | Gt => (q + 1)%Z
  | Eq => if Z.even q then q else (q + 1)%Z
  end.

(** Rounding of a positive rational to a 53-bit significand. *)
Definition round_pos (x : Q) : Q :=
  let e := ilog2 x in
  inject_Z (rne (x * pow2 (52 - e))) * pow2 (e - 52).

(** Round to nearest, ties to even.  The exponent is not bounded: the
    result is the binary64 one for magnitudes in the normal range
    2^-1022 .. 2^1024, which holds every non-zero value the script
    computes from a canvas size. *)
Definition rnd (x : Q) : Q :=
  match Qcompare x 0 with
  | Eq => 0
  | Gt => round_pos x
  | Lt => - round_pos (- x)
  end.

Definition add (x y : Q) : Q := rnd (x + y).
Definition sub (x y : Q) : Q := rnd (x - y).
Definition mul (x y : Q) : Q := rnd (x * y).
Definition div (x y : Q) : Q := rnd (x / y).

(** [Math.floor] *)
Definition floor (x : Q) : Q := inject_Z (Qfloor x).

(** A decimal literal of the source denotes the nearest binary64. *)
Definition lit (q : Q) : Q := rnd q.

(** An integer-valued Number, e.g. [canvas.width]. *)
Definition of_Z (n : Z) : Q := inject_Z n.

End F64.

Declare Scope js_scope.
Delimit Scope js_scope with js.
Infix "+!" := F64.add (at level 50, left associativity) : js_scope.
Infix "-!" := F64.sub (at level 50, left associativity) : js_scope.
Infix "*!" := F64.mul (at level 40, left associativity) : js_scope.
Infix "/!" := F64.div (at level 40, left associativity) : js_scope.
Local Open Scope js_scope.

(** ** Strings and number formatting *)

Module JS.

Local Open Scope string_scope.

(** U+00B1 PLUS-MINUS SIGN, bytes C2 B1. *)
Definition plus_minus : string :=
  String (ascii_of_nat 194) (String (ascii_of_nat 177) EmptyString).

(** U+00C2 LATIN CAPITAL LETTER A WITH CIRCUMFLEX, bytes C3 82. *)
Definition a_circumflex : string :=
  String (ascii_of_nat 195) (String (ascii_of_nat 130) EmptyString).

(** Decimal digits of a non-negative integer; [0] gives the digit 0. *)
Definition digits (n : Z) : list ascii :=
  list_ascii_of_string (NilZero.string_of_uint (N.to_uint (Z.to_N n))).

(** Template-literal conversion of an integer-valued Number below
    10^21, as [Date.now()] returns. *)
Definition string_of_int (n : Z) : string :=
  if (n <? 0)%Z then "-" ++ string_of_list_ascii (digits (- n))
  else string_of_list_ascii (digits n).

Definition zero_char : ascii := "0"%char.

(** [Number.prototype.toFixed(f)], ECMA-262 21.1.3.3, for a finite
    number of magnitude below 10^21 (step 10, the exponent notation of
    larger magnitudes, is left out).  Steps 9 and 11: the sign is split
    off, [n] is the integer nearest to [x * 10^f] with a tie resolved
    to the larger [n], its digits are padded with zeros to [f + 1]
    places, and the point goes before the last [f] of them. *)
Definition toFixed (x : Q) (f : nat) : string :=
  let neg := negb (Qle_bool 0 x) in
  let ax := if neg then - x else x in
  let n := Qfloor (ax * inject_Z (10 ^ Z.of_nat f) + (1 # 2)) in
  let m := digits n in
  let k := List.length m in
  let m := if (k <=? f)%nat then (repeat zero_char (f + 1 - k) ++ m)%list else m in
  let k := List.length m in
  let a := firstn (k - f) m in
  let b := skipn (k - f) m in
  let body :=
    match f with
    | O => string_of_list_ascii m
    | S _ => string_of_list_ascii a ++ "." ++ string_of_list_ascii b
    end in
  if neg then "-" ++ body else body.

End JS.


(** ** State of the page *)

(** [facingMode]: the script only ever stores these two strings. *)
Inductive Facing : Type :=
| Environment   (* 'environment', the back camera *)
| User.         (* 'user', the front camera *)

(** A [MediaStream] handed out by [getUserMedia]. *)
Definition StreamId : Type := nat.

(** The four text sinks of the live overlay. *)
Record Overlay : Type := mkOverlay {
  coordinates : string;   (* coordinatesEl.textContent *)
  altitude : string;      (* altitudeEl.textContent *)
  accuracy : string;      (* accuracyEl.textContent *)
  datetime : string       (* datetimeEl.textContent *)
}.

Record Size : Type := mkSize { width : Z; height : Z }.

(** Globals of the script and the DOM state it reads or writes. *)
Record Page : Type := mkPage {
  stream : option StreamId;       (* let stream = null *)
  facingMode : Facing;            (* let facingMode = 'environment' *)
  watchId : option Z;             (* let watchId = null *)
  srcObject : option StreamId;    (* video.srcObject *)
  permissionDisplay : string;     (* permissionMessage.style.display *)
  loading : bool;                 (* 'loading' in coordinatesEl.classList *)
  texts : Overlay;
  video : Size;                   (* video.videoWidth, video.videoHeight *)
  canvas : Size                   (* canvas.width, canvas.height *)
}.

Definition set_stream (v : option StreamId) (p : Page) : Page :=
  mkPage v (facingMode p) (watchId p) (srcObject p) (permissionDisplay p)
         (loading p) (texts p) (video p) (canvas p).

Definition set_facingMode (v : Facing) (p : Page) : Page :=
  mkPage (stream p) v (watchId p) (srcObject p) (permissionDisplay p)
         (loading p) (texts p) (video p) (canvas p).

Definition set_watchId (v : option Z) (p : Page) : Page :=
  mkPage (stream p) (facingMode p) v (srcObject p) (permissionDisplay p)
         (loading p) (texts p) (video p) (canvas p).

Definition set_srcObject (v : option StreamId) (p : Page) : Page :=
  mkPage (stream p) (facingMode p) (watchId p) v (permissionDisplay p)
         (loading p) (texts p) (video p) (canvas p).

Definition set_permissionDisplay (v : string) (p : Page) : Page :=
  mkPage (stream p) (facingMode p) (watchId p) (srcObject p) v
         (loading p) (texts p) (video p) (canvas p).

Definition set_loading (v : bool) (p : Page) : Page :=
  mkPage (stream p) (facingMode p) (watchId p) (srcObject p)
         (permissionDisplay p) v (texts p) (video p) (canvas p).

Definition set_texts (v : Overlay) (p : Page) : Page :=
  mkPage (stream p) (facingMode p) (watchId p) (srcObject p)
         (permissionDisplay p) (loading p) v (video p) (canvas p).

Definition set_canvas (v : Size) (p : Page) : Page :=
  mkPage (stream p) (facingMode p) (watchId p) (srcObject p)
         (permissionDisplay p) (loading p) (texts p) (video p) v.

Definition set_coordinates (v : string) (o : Overlay) : Overlay :=
  mkOverlay v (altitude o) (accuracy o) (datetime o).

Definition set_altitude (v : string) (o : Overlay) : Overlay :=
  mkOverlay (coordinates o) v (accuracy o) (datetime o).

Definition set_accuracy (v : string) (o : Overlay) : Overlay :=
  mkOverlay (coordinates o) (altitude o) v (datetime o).

Definition set_datetime (v : string) (o : Overlay) : Overlay :=
  mkOverlay (coordinates o) (altitude o) (accuracy o) v.

(** ** The host: capture device, promises, log of calls *)

(** Why [getUserMedia] rejected. *)
Inductive CaptureError : Type :=
| NotAllowedError        (* permission denied *)
| NotFoundError          (* no such device *)
| NotReadableError       (* device busy *)
| OverconstrainedError   (* constraints cannot be met *)
| OtherError (name : string).

(** [GeolocationPositionError.code] *)
Inductive LocationError : Type :=
| PERMISSION_DENIED
| POSITION_UNAVAILABLE
| TIMEOUT.

Inductive Thrown : Type :=
| CameraFailure (e : CaptureError)
| LocationFailure (e : LocationError).

(** The argument of [getUserMedia]. *)
Record Constraints : Type := mkConstraints {
  c_facingMode : Facing;
  c_idealWidth : Z;
  c_idealHeight : Z;
  c_audio : bool
}.

(** Calls into the host, in the order the script makes them. *)
Inductive Call : Type :=
| StopTracks (s : StreamId)              (* getTracks().forEach(t => t.stop()) *)
| GetUserMedia (c : Constraints)
| ConsoleError (tag : string) (e : Thrown)
| WatchPosition (highAccuracy : bool) (timeout maximumAge : Z)
| SetInterval (ms : Z)
| UnhandledRejection (e : Thrown).

(** Which function awaits [startCamera]. *)
Inductive Caller : Type :=
| ByInit
| ByToggle.

Record World : Type := mkWorld {
  page : Page;
  live : list StreamId;       (* streams whose tracks hold the device *)
  nextStream : StreamId;      (* the next stream the host hands out *)
  pending : list Caller;      (* unsettled getUserMedia requests *)
  calls : list Call;          (* host calls so far, oldest first *)
  geolocation : bool;         (* navigator.geolocation is defined *)
  nextWatch : Z;              (* the next id watchPosition returns *)
  dateStr : string;           (* now.toLocaleDateString('en-US', ...) *)
  timeStr : string            (* now.toLocaleTimeString('en-US', ...) *)
}.

Definition set_page (v : Page) (w : World) : World :=
  mkWorld v (live w) (nextStream w) (pending w) (calls w)
          (geolocation w) (nextWatch w) (dateStr w) (timeStr w).

Definition on_page (f : Page -> Page) (w : World) : World :=
  set_page (f (page w)) w.

Definition set_live (v : list StreamId) (w : World) : World :=
  mkWorld (page w) v (nextStream w) (pending w) (calls w)
          (geolocation w) (nextWatch w) (dateStr w) (timeStr w).

Definition set_nextStream (v : StreamId) (w : World) : World :=
  mkWorld (page w) (live w) v (pending w) (calls w)
          (geolocation w) (nextWatch w) (dateStr w) (timeStr w).

Definition set_pending (v : list Caller) (w : World) : World :=
  mkWorld (page w) (live w) (nextStream w) v (calls w)
          (geolocation w) (nextWatch w) (dateStr w) (timeStr w).

Definition call (c : Call) (w : World) : World :=
  mkWorld (page w) (live w) (nextStream w) (pending w) (calls w ++ [c])
          (geolocation w) (nextWatch w) (dateStr w) (timeStr w).

Definition set_nextWatch (v : Z) (w : World) : World :=
  mkWorld (page w) (live w) (nextStream w) (pending w) (calls w)
          (geolocation w) v (dateStr w) (timeStr w).

Definition set_clock (d t : string) (w : World) : World :=
  mkWorld (page w) (live w) (nextStream w) (pending w) (calls w)
          (geolocation w) (nextWatch w) d t.

(** ** Capture source *)

Local Open Scope string_scope.

(** [showPermissionMessage] *)
Definition showPermissionMessage (p : Page) : Page :=
  set_permissionDisplay "flex" p.

(** [facingMode === 'environment' ? 'user' : 'environment'] *)
Definition flip (f : Facing) : Facing :=
  match f with
  | Environment => User
  | User => Environment
  end.

(** [stream.getTracks().forEach(track => track.stop())] *)
Definition stopTracks (s : StreamId) (w : World) : World :=
  call (StopTracks s) (set_live (remove Nat.eq_dec s (live w)) w).

(** [startCamera], the [try] block up to the [await]: the tracks of the
    stream held in [stream] are stopped, the constraints are built from
    the current [facingMode] and the request is made. *)
Definition startCamera (by_ : Caller) (w : World) : World :=
  let w := match stream (page w) with
           | Some s => stopTracks s w
           | None => w
           end in
  let constraints := mkConstraints (facingMode (page w)) 1920 1080 false in
  let w := call (GetUserMedia constraints) w in
  set_pending (pending w ++ [by_]) w.

(** [startCamera] after the [await], the request fulfilled with [s]. *)
Definition startCamera_resume (s : StreamId) (p : Page) : Page :=
  set_permissionDisplay "none" (set_srcObject (Some s) (set_stream (Some s) p)).

(** How an [async] function settles. *)
Inductive Completion : Type :=
| Returned
| Threw (e : Thrown).

(** [startCamera], the [catch] block: log, show the prompt, rethrow. *)
Definition startCamera_catch (e : CaptureError) (w : World) : World * Completion :=
  let w := call (ConsoleError "Camera error:" (CameraFailure e)) w in
  let w := on_page showPermissionMessage w in
  (w, Threw (CameraFailure e)).

(** [startCamera] from the [await] on, for either outcome of the request. *)
Definition startCamera_settle (r : StreamId + CaptureError) (w : World)
  : World * Completion :=
  match r with
  | inl s => (on_page (startCamera_resume s) w, Returned)
  | inr e => startCamera_catch e w
  end.

(** [init] up to the [await] inside [startCamera]. *)
Definition init (w : World) : World := startCamera ByInit w.

(** [toggleCamera] up to the [await] inside [startCamera]. *)
Definition toggleCamera (w : World) : World :=
  let w := on_page (fun p => set_facingMode (flip (facingMode p)) p) w in
  startCamera ByToggle w.

(** ** Location tracker *)

(** [position.coords]; [altitude] and [accuracy] are compared with
    [null] by the script. *)
Record Coords : Type := mkCoords {
  latitude : Q;
  longitude : Q;
  coords_altitude : option Q;
  coords_accuracy : option Q
}.

Definition on_texts (f : Overlay -> Overlay) (p : Page) : Page :=
  set_texts (f (texts p)) p.

(** [updatePosition], with the text put before the accuracy value. *)
Definition updatePositionWith (prefix : string) (c : Coords) (p : Page) : Page :=
  let lat := JS.toFixed (latitude c) 6 in
  let lon := JS.toFixed (longitude c) 6 in
  let p := on_texts (set_coordinates (lat ++ ", " ++ lon)) p in
  let p := set_loading false p in
  let p := match coords_altitude c with
           | Some a => on_texts (set_altitude (JS.toFixed a 1 ++ " m")) p
           | None => on_texts (set_altitude "N/A") p
           end in
  match coords_accuracy c with
  | Some a => on_texts (set_accuracy (prefix ++ JS.toFixed a 1 ++ " m")) p
  | None => on_texts (set_accuracy "N/A") p
  end.

(** [updatePosition] of the current script: the template literal holds the
    bytes C3 82 C2 B1 before the value. *)
Definition updatePosition : Coords -> Page -> Page :=
  updatePositionWith (JS.a_circumflex ++ JS.plus_minus).

(** [handleLocationError] *)
Definition handleLocationError (e : LocationError) (w : World) : World :=
  let w := call (ConsoleError "Location error:" (LocationFailure e)) w in
  let w := on_page (on_texts (set_coordinates "Location unavailable")) w in
  on_page (set_loading false) w.

(** [startLocationTracking] *)
Definition startLocationTracking (w : World) : World :=
  if negb (geolocation w) then
    on_page (on_texts (set_coordinates "Geolocation not supported")) w
  else
    let w := call (WatchPosition true 5000 0) w in
    let id := nextWatch w in
    set_nextWatch (id + 1) (on_page (set_watchId (Some id)) w).

(** ** Clock *)

(** [updateClock] *)
Definition updateClock (w : World) : World :=
  on_page (on_texts (set_datetime (dateStr w ++ " " ++ timeStr w))) w.

(** [startClock] *)
Definition startClock (w : World) : World :=
  call (SetInterval 1000) (updateClock w).

(** ** Initialisation *)

(** [init] after [await startCamera()]: the rest of the [try] block when
    it returned, the [catch] block when it threw. *)
Definition init_settle (c : Completion) (w : World) : World :=
  match c with
  | Returned => startClock (startLocationTracking w)
  | Threw e =>
      let w := call (ConsoleError "Initialization error:" e) w in
      on_page showPermissionMessage w
  end.

(** [toggleCamera] after [await startCamera()]: nothing is left to do, and
    the click listener drops the promise. *)
Definition toggleCamera_settle (c : Completion) (w : World) : World :=
  match c with
  | Returned => w
  | Threw e => call (UnhandledRejection e) w
  end.

(** ** Overlay compositor *)

(** Calls on the canvas and its 2D context, in program order.  A font is
    kept as its weight and pixel size; the family is the same
    [-apple-system, BlinkMacSystemFont, sans-serif] everywhere. *)
Inductive CanvasOp : Type :=
| Resize (w h : Z)                         (* canvas.width = ; canvas.height = *)
| DrawImage (dx dy dw dh : Q)              (* drawImage(video, ...) *)
| FillStyle (color : string)
| FillStyleGradient                        (* fillStyle = gradient *)
| StrokeStyle (color : string)
| LineWidth (w : Q)
| FillRect (x y w h : Q)
| StrokeRect (x y w h : Q)
| CreateLinearGradient (x0 y0 x1 y1 : Q)
| AddColorStop (offset : Q) (color : string)
| TextAlign (a : string)
| Font (weight : Z) (px : Q)
| FillText (text : string) (x y : Q)
| BeginPath
| MoveTo (x y : Q)
| LineTo (x y : Q)
| Stroke
| ToBlob (type : string) (quality : Q).

Module Landscape.

Section Layout.

(** [canvas.width], [canvas.height] and the four display strings. *)
Variables (W H : Z) (t : Overlay).

Let cw : Q := F64.of_Z W.
Let ch : Q := F64.of_Z H.

Definition baseFontSize : Q := F64.floor (cw /! 30).
Definition overlayWidth : Q := F64.floor (cw *! F64.lit 0.30).
Definition padding : Q := baseFontSize *! F64.lit 1.2.
Definition itemSpacing : Q := baseFontSize *! F64.lit 2.5.
Definition headerFontSize : Q := baseFontSize *! F64.lit 1.4.
Definition labelFontSize : Q := baseFontSize *! F64.lit 0.9.
Definition valueFontSize : Q := baseFontSize *! F64.lit 0.9.
Definition overlayHeight : Q :=
  padding *! 2 +! headerFontSize +! itemSpacing *! 4.
Definition overlayX : Q := cw -! overlayWidth -! padding.
Definition overlayY : Q := ch -! overlayHeight -! padding.
Definition rowPadding : Q := padding *! F64.lit 0.8.
Definition labelX : Q := overlayX +! rowPadding.
Definition valueX : Q := overlayX +! overlayWidth -! rowPadding.

(** The panel: fill and border, the gradient behind it, fill and
    border again. *)
Definition panel : list CanvasOp :=
  [ FillStyle "rgba(255, 255, 255, 0.15)";
    FillRect overlayX overlayY overlayWidth overlayHeight;
    StrokeStyle "rgba(255, 255, 255, 0.2)";
    LineWidth 1;
    StrokeRect overlayX overlayY overlayWidth overlayHeight;
    CreateLinearGradient (cw -! overlayWidth -! padding *! 2) overlayY
                         cw overlayY;
    AddColorStop 0 "rgba(0, 0, 0, 0)";
    AddColorStop (F64.lit 0.3) "rgba(0, 0, 0, 0.3)";
    AddColorStop 1 "rgba(0, 0, 0, 0.6)";
    FillStyleGradient;
    FillRect (cw -! overlayWidth -! padding *! 3) (overlayY -! padding)
             (overlayWidth +! padding *! 3) (overlayHeight +! padding *! 2);
    FillStyle "rgba(255, 255, 255, 0.15)";
    FillRect overlayX overlayY overlayWidth overlayHeight;
    StrokeStyle "rgba(255, 255, 255, 0.2)";
    LineWidth 1;
    StrokeRect overlayX overlayY overlayWidth overlayHeight ].

(** Where the header starts. *)
Definition headerY : Q := overlayY +! padding *! F64.lit 1.2.

Definition header : list CanvasOp :=
  [ FillStyle "white";
    TextAlign "center";
    Font 600 headerFontSize;
    FillText "GPS Cam by solvepao research"
             (overlayX +! overlayWidth /! 2)
             (headerY +! headerFontSize *! F64.lit 0.8) ].

(** [currentY] after the header. *)
Definition firstRowY : Q :=
  headerY +! (headerFontSize +! padding *! F64.lit 1.3).

(** [drawInfoRow]: the calls it makes and the value it returns. *)
Definition drawInfoRow (label value : string) (yPos : Q)
  : list CanvasOp * Q :=
  ([ StrokeStyle "rgba(255, 255, 255, 0.1)";
     LineWidth 1;
     BeginPath;
     MoveTo (overlayX +! rowPadding) yPos;
     LineTo (overlayX +! overlayWidth -! rowPadding) yPos;
     Stroke;
     FillStyle "rgba(255, 255, 255, 0.8)";
     TextAlign "left";
     Font 500 labelFontSize;
     FillText label labelX (yPos +! labelFontSize *! F64.lit 1.4);
     FillStyle "white";
     TextAlign "right";
     Font 600 valueFontSize;
     FillText value valueX (yPos +! valueFontSize *! F64.lit 1.4) ],
   yPos +! itemSpacing).

Definition rows : list CanvasOp :=
  let currentY := firstRowY in
  let '(r1, currentY) := drawInfoRow "Coordinates" (coordinates t) currentY in
  let '(r2, currentY) := drawInfoRow "Altitude" (altitude t) currentY in
  let '(r3, currentY) := drawInfoRow "Accuracy" (accuracy t) currentY in
  let '(r4, _) := drawInfoRow "Date & Time" (datetime t) currentY in
  r1 ++ r2 ++ r3 ++ r4.

Definition draw : list CanvasOp :=
  panel ++ header ++ [Font 500 labelFontSize] ++ rows.

End Layout.

End Landscape.

Module Portrait.

Section Layout.

Variables (W : Z) (t : Overlay).

Let cw : Q := F64.of_Z W.

Definition fontSize : Q := F64.floor (cw /! 25).
Definition padding : Q := fontSize *! F64.lit 0.8.

(** The values [y] takes. *)
Definition y0 : Q := fontSize *! F64.lit 1.5.
Definition y1 : Q := y0 +! fontSize *! F64.lit 1.8.
Definition y2 : Q := y1 +! fontSize *! F64.lit 1.2.
Definition y3 : Q := y2 +! fontSize *! F64.lit 1.2.
Definition y4 : Q := y3 +! fontSize *! F64.lit 1.2.

Definition band : list CanvasOp :=
  [ FillStyle "rgba(0, 0, 0, 0.7)";
    FillRect 0 0 cw (fontSize *! 8);
    FillStyle "white";
    TextAlign "left" ].

(** Header and the four lines, under a given brand text. *)
Definition lines (brand : string) : list CanvasOp :=
  [ Font 700 (fontSize *! F64.lit 1.2);
    FillText brand padding y0;
    Font 500 (fontSize *! F64.lit 0.8);
    FillText ("Coordinates: " ++ coordinates t) padding y1;
    FillText ("Altitude: " ++ altitude t) padding y2;
    FillText ("Accuracy: " ++ accuracy t) padding y3;
    FillText ("Date & Time: " ++ datetime t) padding y4 ].

Definition draw : list CanvasOp :=
  band ++ lines "GPS Cam by solvepao research".

End Layout.

End Portrait.

(** [canvas.width > canvas.height] *)
Definition isLandscape (W H : Z) : bool := (H <? W)%Z.

(** The export request that ends every capture. *)
Definition export : CanvasOp := ToBlob "image/jpeg" (F64.lit 0.95).

(** [capturePhoto] of the current script: the page it leaves and the
    canvas calls it makes.  The callback given to [toBlob] is [saveBlob]. *)
Definition capturePhoto (p : Page) : Page * list CanvasOp :=
  let W := width (video p) in
  let H := height (video p) in
  let p := set_canvas (mkSize W H) p in
  let blit := [Resize W H; DrawImage 0 0 (F64.of_Z W) (F64.of_Z H)] in
  let overlay :=
    if isLandscape W H then Landscape.draw W H (texts p)
    else Portrait.draw W (texts p) in
  (p, (blit ++ overlay ++ [export])%list).

(** What the [toBlob] callback does with the encoded image. *)
Inductive SaveOp : Type :=
| CreateObjectURL
| CreateAnchor             (* document.createElement('a'); a.href = url *)
| SetDownload (name : string)
| Click
| RevokeObjectURL.

(** [`solvepao_${Date.now()}.jpg`] *)
Definition filename (now : Z) : string :=
  "solvepao_" ++ JS.string_of_int now ++ ".jpg".

(** The callback of [toBlob], run at time [now] (milliseconds). *)
Definition saveBlob (now : Z) : list SaveOp :=
  [CreateObjectURL; CreateAnchor; SetDownload (filename now); Click;
   RevokeObjectURL].

(** The older revision of the script, where it differs. *)
Module ScriptJs.

(** Its accuracy text starts with the plus-minus sign alone. *)
Definition updatePosition : Coords -> Page -> Page :=
  updatePositionWith JS.plus_minus.

(** Its [capturePhoto] draws the top band for every frame. *)
Definition capturePhoto (p : Page) : Page * list CanvasOp :=
  let W := width (video p) in
  let H := height (video p) in
  let p := set_canvas (mkSize W H) p in
  let blit := [Resize W H; DrawImage 0 0 (F64.of_Z W) (F64.of_Z H)] in
  let overlay :=
    ([Font 600 (Portrait.fontSize W)]
       ++ Portrait.band W
       ++ Portrait.lines W (texts p) "SolvePao Research")%list in
  (p, (blit ++ overlay ++ [export])%list).

End ScriptJs.

(** ** The event loop *)

(** What the host can deliver to the page. *)
Inductive Event : Type :=
| RunInit                              (* script start, or a click on Retry *)
| ClickToggle
| ClickCapture
| Fulfil (i : nat)                     (* the i-th pending request succeeds *)
| Reject (i : nat) (e : CaptureError)  (* the i-th pending request fails *)
| PositionFix (c : Coords)
| PositionError (e : LocationError)
| Tick (d t : string).                 (* a timer tick at the given wall time *)

(** The list without its [i]-th element. *)
Fixpoint drop_nth {A : Type} (i : nat) (l : list A) : list A :=
  match l, i with
  | [], _ => []
  | _ :: l', O => l'
  | x :: l', S i' => x :: drop_nth i' l'
  end.

(** The continuation that awaits [startCamera]. *)
Definition caller_settle (c : Caller) : Completion -> World -> World :=
  match c with
  | ByInit => init_settle
  | ByToggle => toggleCamera_settle
  end.

(** The host settles the [i]-th pending request: a fulfilled one comes
    with a new stream whose track is live. *)
Definition settle (i : nat) (r : unit + CaptureError) (w : World) : World :=
  match nth_error (pending w) i with
  | None => w
  | Some c =>
      let w := set_pending (drop_nth i (pending w)) w in
      match r with
      | inl _ =>
          let s := nextStream w in
          let w := set_nextStream (S s) (set_live (s :: live w) w) in
          let '(w, k) := startCamera_settle (inl s) w in
          caller_settle c k w
      | inr e =>
          let '(w, k) := startCamera_settle (inr e) w in
          caller_settle c k w
      end
  end.

Definition step (w : World) (ev : Event) : World :=
  match ev with
  | RunInit => init w
  | ClickToggle => toggleCamera w
  | ClickCapture => on_page (fun p => fst (capturePhoto p)) w
  | Fulfil i => settle i (inl tt) w
  | Reject i e => settle i (inr e) w
  | PositionFix c =>
      match watchId (page w) with
      | Some _ => on_page (updatePosition c) w
      | None => w
      end
  | PositionError e =>
      match watchId (page w) with
      | Some _ => handleLocationError e w
      | None => w
      end
  | Tick d t => updateClock (set_clock d t w)
  end.

Definition run (w : World) (evs : list Event) : World :=
  fold_left step evs w.

(** The states passed through, the first one included. *)
Fixpoint states (w : World) (evs : list Event) : list World :=
  match evs with
  | [] => [w]
  | ev :: evs' => w :: states (step w ev) evs'
  end.

(** The page as the script's first line finds it. *)
Definition initialPage (videoSize : Size) : Page :=
  mkPage None Environment None None EmptyString true
         (mkOverlay EmptyString EmptyString EmptyString EmptyString)
         videoSize (mkSize 300 150).

Definition initialWorld (geo : bool) (d t : string) : World :=
  mkWorld (initialPage (mkSize 0 0)) [] O [] [] geo 1 d t.

(** ** Reading a trace *)






(** The bordered panel is drawn by the landscape layout only. *)
Definition draws_panel (ops : list CanvasOp) : bool :=
  existsb (fun op => match op with StrokeRect _ _ _ _ => true | _ => false end)
          ops.

(** The dark band is drawn by the portrait layout only. *)
Definition draws_band (ops : list CanvasOp) : bool :=
  existsb (fun op => match op with
                     | FillStyle c => String.eqb c "rgba(0, 0, 0, 0.7)"
                     | _ => false
                     end) ops.

(** The height at which each separator line is drawn, one per row. *)
Definition row_ys (ops : list CanvasOp) : list Q :=
  flat_map (fun op => match op with MoveTo _ y => [y] | _ => [] end) ops.

(** The texts drawn, in order. *)
Definition drawn_texts (ops : list CanvasOp) : list string :=
  flat_map (fun op => match op with FillText s _ _ => [s] | _ => [] end) ops.

(** The row spacing in the specification's words: 2.5 times the base font
    size, the base font size being floor(width / 25). *)
Definition specItemSpacing (W : Z) : Q := (5 # 2) * inject_Z (W / 25).

(** A save action with its file name left out. *)
Definition unnamed (op : SaveOp) : SaveOp :=
  match op with
  | SetDownload _ => SetDownload EmptyString
  | _ => op
  end.

Definition begins_call (ev : Event) : bool :=
  match ev with
  | RunInit | ClickToggle => true
  | _ => false
  end.

(** Every call of [init] or [toggleCamera] in [evs] is made while no
    request is pending, that is after the previous call has settled. *)
Fixpoint serial (w : World) (evs : list Event) : bool :=
  match evs with
  | [] => true
  | ev :: evs' =>
      (if begins_call ev
       then match pending w with [] => true | _ :: _ => false end
       else true)
      && serial (step w ev) evs'
  end.

(** No request is pending and the device is held by no stream other than
    the one in [stream]. *)
Definition settled (w : World) : bool :=
  match pending w, live w, stream (page w) with
  | [], [], _ => true
  | [], [s], Some s' => Nat.eqb s s'
  | _, _, _ => false
  end.

(** At most one capture session holds the device. *)
Definition one_session (w : World) : Prop := (List.length (live w) <= 1)%nat.

(** A call of [startCamera] made in [w] stops the tracks of the stream
    held in [stream] before it requests a new one. *)
Definition stops_first (w : World) : Prop :=
  forall (by_ : Caller) (s : StreamId),
    stream (page w) = Some s ->
    calls (startCamera by_ w)
    = (calls w ++ [StopTracks s;
                   GetUserMedia
                     (mkConstraints (facingMode (page w)) 1920 1080 false)])%list
    /\ ~ In s (live (startCamera by_ w)).

(** What holds between the events of a serial run: a live stream is the
    one in [stream], and none is live while a request is pending. *)
Definition session_inv (w : World) : Prop :=
  (List.length (live w) <= 1)%nat
  /\ (List.length (pending w) <= 1)%nat
  /\ (forall s, In s (live w) -> stream (page w) = Some s)
  /\ (pending w <> [] -> live w = []).

(** A page that has just been loaded, with geolocation available. *)
Definition freshWorld : World := initialWorld true EmptyString EmptyString.

(** ** Touches *)

(** The [touchend] listener, at time [now] (milliseconds): whether it
    calls [preventDefault], and the new value of [lastTouchEnd]. *)
Definition touchend (now lastTouchEnd : Z) : bool * Z :=
  (Qle_bool (F64.of_Z now -! F64.of_Z lastTouchEnd) 300, now).

(** A series of touches at the given times, [lastTouchEnd] being as
    given before the first: which of them are prevented. *)
Fixpoint touches (lastTouchEnd : Z) (times : list Z) : list bool :=
  match times with
  | [] => []
  | now :: rest =>
      let '(prevented, last) := touchend now lastTouchEnd in
      prevented :: touches last rest
  end.

(** ** More readings of a run *)

Definition is_toggle (ev : Event) : bool :=
  match ev with
  | ClickToggle => true
  | _ => false
  end.

(** The number of clicks on the toggle in a run. *)
Definition count_toggles (evs : list Event) : nat :=
  List.length (filter is_toggle evs).

(** A decimal digit. *)
Definition is_digit (c : ascii) : bool :=
  (48 <=? nat_of_ascii c)%nat && (nat_of_ascii c <=? 57)%nat.

(** The rectangle [x, x + w] x [y, y + h] lies inside a raster of the
    given size. *)
Definition inside (W H : Z) (x y w h : Q) : Prop :=
  0 <= x /\ 0 <= y /\ x + w <= inject_Z W /\ y + h <= inject_Z H.

(** The text [sign a . b] is a decimal number with [f] fraction digits:
    an optional minus sign, at least one integer digit, [f] digits after
    the point. *)
Definition decimal_parts (f : nat) (sign : string) (a b : list ascii) : Prop :=
  (sign = EmptyString \/ sign = "-")
  /\ a <> []
  /\ List.length b = f
  /\ Forall (fun c => is_digit c = true) a
  /\ Forall (fun c => is_digit c = true) b.

Definition decimal_text (sign : string) (a b : list ascii) : string :=
  sign ++ string_of_list_ascii a ++ "." ++ string_of_list_ascii b.

(** Which touches of a series end at most 300 ms after the touch before
    them, the first being measured from [last]. *)
Fixpoint quick_after (last : Z) (times : list Z) : list bool :=
  match times with
  | [] => []
  | now :: rest => (now - last <=? 300)%Z :: quick_after now rest
  end.

(** A rounding error no operation on magnitudes up to 2^32 exceeds. *)
Definition eps : Q := 1 # 2097152.

(** Where each text is drawn: the anchor point given to [fillText]. *)
Definition text_places (ops : list CanvasOp) : list (Q * Q) :=
  flat_map (fun op => match op with FillText _ x y => [(x, y)] | _ => [] end) ops.

(** The point [xy] lies in the rectangle [x, x + w] x [y, y + h]. *)
Definition in_rect (x y w h : Q) (xy : Q * Q) : Prop :=
  x <= fst xy /\ fst xy <= x + w /\ y <= snd xy /\ snd xy <= y + h.

(** * Facts about binary64 rounding *)

Module F64Facts.

Import F64.

(** Powers of two. *)

Lemma pow2_pos k : 0 < pow2 k.
Proof. apply Qpower_0_lt. reflexivity. Qed.

Lemma pow2_add a b : pow2 (a + b) == pow2 a * pow2 b.
Proof. apply Qpower_plus. discriminate. Qed.

Lemma pow2_0 : pow2 0 == 1.
Proof. reflexivity. Qed.

Lemma pow2_1 : pow2 1 == 2.
Proof. reflexivity. Qed.

Lemma pow2_succ a : pow2 (a + 1) == 2 * pow2 a.
Proof. rewrite pow2_add, pow2_1. ring. Qed.

Lemma pow2_le a b : (a <= b)%Z -> pow2 a <= pow2 b.
Proof. intros H. apply Qpower_le_compat_l; [exact H | discriminate]. Qed.

Lemma pow2_lt a b : (a < b)%Z -> pow2 a < pow2 b.
Proof. intros H. apply Qpower_lt_compat_l; [exact H | reflexivity]. Qed.

Lemma pow2_lt_inv a b : pow2 a < pow2 b -> (a < b)%Z.
Proof. intros H. apply Qpower_lt_compat_l_inv with (q := 2); [exact H | reflexivity]. Qed.

Lemma pow2_Z k : (0 <= k)%Z -> pow2 k == inject_Z (2 ^ k).
Proof. intros H. unfold pow2. rewrite Zpower_Qpower by exact H. reflexivity. Qed.

Lemma pow2_inv a : pow2 a * pow2 (- a) == 1.
Proof. rewrite <- pow2_add. replace (a + - a)%Z with 0%Z by ring. reflexivity. Qed.


(** The binary logarithm. *)

Lemma Qmake_mult_den (x : Q) : x * inject_Z (Zpos (Qden x)) == inject_Z (Qnum x).
Proof.
  destruct x as [n d]. unfold Qeq, Qmult, inject_Z. simpl. lia.
Qed.

Lemma Qnum_pos (x : Q) : 0 < x -> (0 < Qnum x)%Z.
Proof. destruct x as [n d]. unfold Qlt. simpl. lia. Qed.

Lemma ilog2_spec (x : Q) :
  0 < x -> pow2 (ilog2 x) <= x /\ x < pow2 (ilog2 x + 1).
Proof.
  intros Hx. unfold ilog2.
  set (n := Qnum x). set (d := Zpos (Qden x)).
  assert (Hn : (0 < n)%Z) by (apply Qnum_pos; exact Hx).
  assert (Hd : (0 < d)%Z) by (unfold d; lia).
  pose proof (Z.log2_spec n Hn) as [Hn1 Hn2].
  pose proof (Z.log2_spec d Hd) as [Hd1 Hd2].
  pose proof (Z.log2_nonneg n) as Hln.
  pose proof (Z.log2_nonneg d) as Hld.
  set (ln := Z.log2 n) in *. set (ld := Z.log2 d) in *.
  assert (EN : x * inject_Z d == inject_Z n) by apply Qmake_mult_den.
  assert (Qn1 : pow2 ln <= inject_Z n).
  { rewrite pow2_Z by lia. rewrite <- Zle_Qle. exact Hn1. }
  assert (Qn2 : inject_Z n < 2 * pow2 ln).
  { rewrite <- pow2_succ. rewrite pow2_Z by lia. rewrite <- Zlt_Qlt.
    replace (ln + 1)%Z with (Z.succ ln) by lia. exact Hn2. }
  assert (Qd1 : pow2 ld <= inject_Z d).
  { rewrite pow2_Z by lia. rewrite <- Zle_Qle. exact Hd1. }
  assert (Qd2 : inject_Z d < 2 * pow2 ld).
  { rewrite <- pow2_succ. rewrite pow2_Z by lia. rewrite <- Zlt_Qlt.
    replace (ld + 1)%Z with (Z.succ ld) by lia. exact Hd2. }
  assert (E0 : pow2 (ln - ld) * pow2 ld == pow2 ln).
  { rewrite <- pow2_add. replace (ln - ld + ld)%Z with ln by ring. reflexivity. }
  assert (E1 : 2 * pow2 (ln - ld - 1) == pow2 (ln - ld)).
  { rewrite <- pow2_succ. replace (ln - ld - 1 + 1)%Z with (ln - ld)%Z by ring.
    reflexivity. }
  pose proof (pow2_pos ld) as Pld.
  pose proof (pow2_pos (ln - ld)) as Pe.
  pose proof (pow2_pos (ln - ld - 1)) as Pe1.
  assert (PD : 0 < inject_Z d) by (apply Qlt_le_trans with (1 := Pld); exact Qd1).
  destruct (Qle_bool (pow2 (ln - ld)) x) eqn:B.
  - apply Qle_bool_iff in B. split; [exact B|].
    rewrite pow2_succ.
    apply Qmult_lt_r with (z := inject_Z d); [exact PD|].
    rewrite EN.
    apply Qlt_le_trans with (1 := Qn2).
    rewrite <- E0.
    setoid_replace (2 * (pow2 (ln - ld) * pow2 ld))
      with (2 * pow2 (ln - ld) * pow2 ld) by ring.
    apply Qmult_le_l; [lra | exact Qd1].
  - assert (B' : x < pow2 (ln - ld)).
    { apply Qnot_le_lt. intros H. apply Qle_bool_iff in H. congruence. }
    split.
    + apply Qmult_le_r with (z := inject_Z d); [exact PD|].
      rewrite EN.
      apply Qle_trans with (2 := Qn1).
      rewrite <- E0, <- E1.
      setoid_replace (2 * pow2 (ln - ld - 1) * pow2 ld)
        with (pow2 (ln - ld - 1) * (2 * pow2 ld)) by ring.
      apply Qmult_le_l; [exact Pe1 | lra].
    + replace (ln - ld - 1 + 1)%Z with (ln - ld)%Z by ring. exact B'.
Qed.

Lemma ilog2_unique (x : Q) (e : Z) :
  pow2 e <= x -> x < pow2 (e + 1) -> ilog2 x = e.
Proof.
  intros H1 H2.
  assert (Hx : 0 < x) by (pose proof (pow2_pos e); lra).
  destruct (ilog2_spec x Hx) as [H3 H4].
  assert (A : (ilog2 x < e + 1)%Z) by (apply pow2_lt_inv; lra).
  assert (B : (e < ilog2 x + 1)%Z) by (apply pow2_lt_inv; lra).
  lia.
Qed.

Lemma ilog2_eq (x y : Q) : 0 < x -> x == y -> ilog2 x = ilog2 y.
Proof.
  intros Hx E. destruct (ilog2_spec x Hx) as [H1 H2].
  symmetry. apply ilog2_unique; rewrite <- E; assumption.
Qed.

(** The nearest integer. *)

Lemma inject_Z_succ (k : Z) : inject_Z (k + 1) == inject_Z k + 1.
Proof. rewrite inject_Z_plus. reflexivity. Qed.

Lemma Qfloor_bounds (y : Q) :
  inject_Z (Qfloor y) <= y /\ y < inject_Z (Qfloor y) + 1.
Proof.
  split; [apply Qfloor_le|].
  pose proof (Qlt_floor y) as H. rewrite inject_Z_succ in H. exact H.
Qed.

Lemma Qfloor_unique (y : Q) (k : Z) :
  inject_Z k <= y -> y < inject_Z k + 1 -> Qfloor y = k.
Proof.
  intros H1 H2. destruct (Qfloor_bounds y) as [H3 H4].
  assert (A : inject_Z (Qfloor y) < inject_Z (k + 1)) by (rewrite inject_Z_succ; lra).
  assert (B : inject_Z k < inject_Z (Qfloor y + 1)) by (rewrite inject_Z_succ; lra).
  rewrite <- Zlt_Qlt in A, B. lia.
Qed.

Lemma rne_cases (y : Q) :
  let q := Qfloor y in
  (y - inject_Z q < 1 # 2 /\ rne y = q) \/
  (1 # 2 < y - inject_Z q /\ rne y = (q + 1)%Z) \/
  (y - inject_Z q == 1 # 2 /\ rne y = if Z.even q then q else (q + 1)%Z).
Proof.
  intros q. unfold rne. fold q.
  destruct (Qcompare (y - inject_Z q) (1 # 2)) eqn:C.
  - right; right. split; [apply Qeq_alt; exact C | reflexivity].
  - left. split; [apply Qlt_alt; exact C | reflexivity].
  - right; left. split; [apply Qgt_alt; exact C | reflexivity].
Qed.

Lemma rne_error (y : Q) :
  y - (1 # 2) <= inject_Z (rne y) /\ inject_Z (rne y) <= y + (1 # 2).
Proof.
  destruct (Qfloor_bounds y) as [H1 H2].
  destruct (rne_cases y) as [[H R] | [[H R] | [H R]]]; rewrite R.
  - lra.
  - rewrite inject_Z_succ. lra.
  - destruct (Z.even (Qfloor y)); [|rewrite inject_Z_succ]; lra.
Qed.

Lemma rne_near (y : Q) (k : Z) :
  inject_Z k - (1 # 2) < y -> y < inject_Z k + (1 # 2) -> rne y = k.
Proof.
  intros H1 H2. destruct (rne_error y) as [E1 E2].
  assert (A : inject_Z (rne y) < inject_Z (k + 1)) by (rewrite inject_Z_succ; lra).
  assert (B : inject_Z k < inject_Z (rne y + 1)) by (rewrite inject_Z_succ; lra).
  rewrite <- Zlt_Qlt in A, B. lia.
Qed.

Lemma rne_Z (y : Q) (k : Z) : y == inject_Z k -> rne y = k.
Proof. intros E. apply rne_near; lra. Qed.

Lemma rne_mono (y1 y2 : Q) : y1 <= y2 -> (rne y1 <= rne y2)%Z.
Proof.
  intros H.
  destruct (Qfloor_bounds y1) as [A1 A2].
  destruct (Qfloor_bounds y2) as [B1 B2].
  pose proof (Qfloor_resp_le _ _ H) as F.
  destruct (Z.eq_dec (Qfloor y1) (Qfloor y2)) as [E | NE].
  - destruct (rne_cases y1) as [[H1 R1] | [[H1 R1] | [H1 R1]]];
      destruct (rne_cases y2) as [[H2 R2] | [[H2 R2] | [H2 R2]]];
      rewrite R1, R2; rewrite E in *; try lia; try lra;
      destruct (Z.even (Qfloor y2)); try lia; lra.
  - assert (F' : (Qfloor y1 + 1 <= Qfloor y2)%Z) by lia.
    assert (U : (rne y1 <= Qfloor y1 + 1)%Z).
    { destruct (rne_cases y1) as [[_ R] | [[_ R] | [_ R]]]; rewrite R;
        try lia. destruct (Z.even _); lia. }
    assert (L : (Qfloor y2 <= rne y2)%Z).
    { destruct (rne_cases y2) as [[_ R] | [[_ R] | [_ R]]]; rewrite R;
        try lia. destruct (Z.even _); lia. }
    lia.
Qed.

#[global] Instance rne_proper : Proper (Qeq ==> eq) rne.
Proof.
  intros x y E. apply Z.le_antisymm; apply rne_mono; rewrite E; apply Qle_refl.
Qed.


(** Rounding to 53 significant bits. *)

Lemma pow2_52 : pow2 52 == inject_Z (2 ^ 52).
Proof. apply pow2_Z. lia. Qed.

Lemma pow2_53 : pow2 53 == inject_Z (2 ^ 53).
Proof. apply pow2_Z. lia. Qed.

Lemma scaled_bounds (x : Q) :
  0 < x ->
  pow2 52 <= x * pow2 (52 - ilog2 x) /\ x * pow2 (52 - ilog2 x) < pow2 53.
Proof.
  intros Hx. destruct (ilog2_spec x Hx) as [H1 H2].
  pose proof (pow2_pos (52 - ilog2 x)) as P.
  assert (A : pow2 52 == pow2 (ilog2 x) * pow2 (52 - ilog2 x)).
  { rewrite <- pow2_add. replace (ilog2 x + (52 - ilog2 x))%Z with 52%Z by ring.
    reflexivity. }
  assert (B : pow2 53 == pow2 (ilog2 x + 1) * pow2 (52 - ilog2 x)).
  { rewrite <- pow2_add. replace (ilog2 x + 1 + (52 - ilog2 x))%Z with 53%Z by ring.
    reflexivity. }
  split.
  - rewrite A. apply Qmult_le_r; assumption.
  - rewrite B. apply Qmult_lt_r; assumption.
Qed.

Lemma rne_scaled (x : Q) :
  0 < x -> (2 ^ 52 <= rne (x * pow2 (52 - ilog2 x)) <= 2 ^ 53)%Z.
Proof.
  intros Hx. destruct (scaled_bounds x Hx) as [H1 H2].
  pose proof (rne_Z (pow2 52) (2 ^ 52) pow2_52) as A.
  pose proof (rne_Z (pow2 53) (2 ^ 53) pow2_53) as B.
  pose proof (rne_mono _ _ H1) as L.
  pose proof (rne_mono _ _ (Qlt_le_weak _ _ H2)) as U.
  rewrite A in L. rewrite B in U. split; assumption.
Qed.

Lemma round_pos_eq (x y : Q) : 0 < x -> x == y -> round_pos x == round_pos y.
Proof.
  intros Hx E. unfold round_pos. rewrite (ilog2_eq x y Hx E). rewrite E.
  reflexivity.
Qed.

Lemma round_pos_bounds (x : Q) :
  0 < x -> pow2 (ilog2 x) <= round_pos x /\ round_pos x <= pow2 (ilog2 x + 1).
Proof.
  intros Hx. destruct (rne_scaled x Hx) as [H1 H2]. unfold round_pos.
  pose proof (pow2_pos (ilog2 x - 52)) as P.
  rewrite Zle_Qle in H1, H2. rewrite <- pow2_52 in H1. rewrite <- pow2_53 in H2.
  assert (A : pow2 (ilog2 x) == pow2 52 * pow2 (ilog2 x - 52)).
  { rewrite <- pow2_add. replace (52 + (ilog2 x - 52))%Z with (ilog2 x) by ring.
    reflexivity. }
  assert (B : pow2 (ilog2 x + 1) == pow2 53 * pow2 (ilog2 x - 52)).
  { rewrite <- pow2_add.
    replace (53 + (ilog2 x - 52))%Z with (ilog2 x + 1)%Z by ring. reflexivity. }
  split.
  - rewrite A. apply Qmult_le_r; assumption.
  - rewrite B. apply Qmult_le_r; assumption.
Qed.

Lemma round_pos_pos (x : Q) : 0 < x -> 0 < round_pos x.
Proof.
  intros Hx. destruct (round_pos_bounds x Hx) as [H _].
  apply Qlt_le_trans with (2 := H). apply pow2_pos.
Qed.

Lemma round_pos_mono (x y : Q) : 0 < x -> x <= y -> round_pos x <= round_pos y.
Proof.
  intros Hx H.
  assert (Hy : 0 < y) by lra.
  destruct (ilog2_spec x Hx) as [X1 X2].
  destruct (ilog2_spec y Hy) as [Y1 Y2].
  assert (L : (ilog2 x < ilog2 y + 1)%Z) by (apply pow2_lt_inv; lra).
  destruct (Z.eq_dec (ilog2 x) (ilog2 y)) as [E | NE].
  - unfold round_pos. rewrite E.
    apply Qmult_le_r; [apply pow2_pos|].
    rewrite <- Zle_Qle. apply rne_mono.
    apply Qmult_le_r; [apply pow2_pos | exact H].
  - destruct (round_pos_bounds x Hx) as [_ U].
    destruct (round_pos_bounds y Hy) as [V _].
    apply Qle_trans with (1 := U). apply Qle_trans with (2 := V).
    apply pow2_le. lia.
Qed.

Lemma round_pos_exact (x : Q) (m k : Z) :
  (0 < m < 2 ^ 53)%Z -> x == inject_Z m * pow2 k -> round_pos x == x.
Proof.
  intros [M1 M2] E.
  assert (Qm1 : 0 < inject_Z m) by (rewrite (Zlt_Qlt 0 m) in M1; exact M1).
  assert (Qm2 : inject_Z m < pow2 53) by (rewrite pow2_53, <- Zlt_Qlt; exact M2).
  pose proof (pow2_pos k) as Pk.
  assert (Hx : 0 < x).
  { rewrite E. apply Qmult_lt_0_compat; assumption. }
  destruct (ilog2_spec x Hx) as [H1 H2].
  set (e := ilog2 x) in *.
  assert (L : (e < 53 + k)%Z).
  { apply pow2_lt_inv. apply Qle_lt_trans with (1 := H1). rewrite E.
    rewrite pow2_add. apply Qmult_lt_r; assumption. }
  set (j := (k + 52 - e)%Z).
  assert (S : x * pow2 (52 - e) == inject_Z (m * 2 ^ j)).
  { rewrite E, inject_Z_mult, <- pow2_Z by (unfold j; lia).
    rewrite <- Qmult_assoc, <- pow2_add.
    replace (k + (52 - e))%Z with j by (unfold j; ring). reflexivity. }
  unfold round_pos. fold e. rewrite (rne_Z _ _ S).
  rewrite inject_Z_mult, <- pow2_Z by (unfold j; lia).
  rewrite <- Qmult_assoc, <- pow2_add.
  replace (j + (e - 52))%Z with k by (unfold j; ring).
  symmetry. exact E.
Qed.

#[global] Instance rnd_proper : Proper (Qeq ==> Qeq) rnd.
Proof.
  intros x y E. unfold rnd. rewrite <- E.
  destruct (Qcompare x 0) eqn:C.
  - reflexivity.
  - apply Qlt_alt in C. apply Qopp_comp. apply round_pos_eq; [lra | rewrite E; reflexivity].
  - apply Qgt_alt in C. apply round_pos_eq; assumption.
Qed.

Lemma rnd_pos (x : Q) : 0 < x -> rnd x == round_pos x.
Proof.
  intros H. unfold rnd. destruct (Qcompare x 0) eqn:C.
  - apply Qeq_alt in C. lra.
  - apply Qlt_alt in C. lra.
  - reflexivity.
Qed.

Lemma rnd_neg (x : Q) : x < 0 -> rnd x == - round_pos (- x).
Proof.
  intros H. unfold rnd. destruct (Qcompare x 0) eqn:C.
  - apply Qeq_alt in C. lra.
  - reflexivity.
  - apply Qgt_alt in C. lra.
Qed.

Lemma rnd_zero (x : Q) : x == 0 -> rnd x == 0.
Proof.
  intros H. unfold rnd. destruct (Qcompare x 0) eqn:C.
  - reflexivity.
  - apply Qlt_alt in C. lra.
  - apply Qgt_alt in C. lra.
Qed.

Lemma rnd_opp (x : Q) : rnd (- x) == - rnd x.
Proof.
  destruct (Q_dec x 0) as [[H | H] | H].
  - rewrite (rnd_neg x H), (rnd_pos (- x)) by lra. ring.
  - rewrite (rnd_pos x H), (rnd_neg (- x)) by lra.
    apply Qopp_comp. apply round_pos_eq; [lra | ring].
  - rewrite (rnd_zero x H), (rnd_zero (- x)) by lra. reflexivity.
Qed.

(** A value with a 53-bit significand is left unchanged. *)
Lemma rnd_exact (x : Q) (m k : Z) :
  (Z.abs m < 2 ^ 53)%Z -> x == inject_Z m * pow2 k -> rnd x == x.
Proof.
  intros M E. pose proof (pow2_pos k) as Pk.
  destruct (Z.lt_trichotomy m 0) as [N | [Z0 | P]].
  - assert (Qm : inject_Z m < 0) by (rewrite (Zlt_Qlt m 0) in N; exact N).
    assert (Hx : x < 0).
    { rewrite E. setoid_replace 0 with (0 * pow2 k) by ring.
      apply Qmult_lt_r; assumption. }
    rewrite (rnd_neg x Hx).
    rewrite (round_pos_exact (- x) (- m) k); [ring | lia |].
    rewrite E, inject_Z_opp. ring.
  - subst m. assert (E0 : x == 0) by (rewrite E; change (inject_Z 0) with 0; ring).
    rewrite (rnd_zero x E0). symmetry. exact E0.
  - assert (Qm : 0 < inject_Z m) by (rewrite (Zlt_Qlt 0 m) in P; exact P).
    assert (Hx : 0 < x).
    { rewrite E. apply Qmult_lt_0_compat; assumption. }
    rewrite (rnd_pos x Hx). apply (round_pos_exact x m k); [lia | exact E].
Qed.

Lemma rnd_Z (m : Z) : (Z.abs m < 2 ^ 53)%Z -> rnd (inject_Z m) == inject_Z m.
Proof.
  intros M. apply (rnd_exact _ m 0 M). rewrite pow2_0. ring.
Qed.

Lemma rnd_mono (x y : Q) : x <= y -> rnd x <= rnd y.
Proof.
  intros H.
  destruct (Q_dec x 0) as [[Hx | Hx] | Hx];
    destruct (Q_dec y 0) as [[Hy | Hy] | Hy]; try lra.
  - rewrite (rnd_neg x Hx), (rnd_neg y Hy).
    apply Qopp_le_compat. apply round_pos_mono; lra.
  - rewrite (rnd_neg x Hx), (rnd_pos y Hy).
    pose proof (round_pos_pos (- x)). pose proof (round_pos_pos y). lra.
  - rewrite (rnd_neg x Hx), (rnd_zero y Hy).
    pose proof (round_pos_pos (- x)). lra.
  - rewrite (rnd_pos x Hx), (rnd_pos y Hy). apply round_pos_mono; lra.
  - rewrite (rnd_zero x Hx), (rnd_pos y Hy). pose proof (round_pos_pos y). lra.
  - rewrite (rnd_zero x Hx), (rnd_zero y Hy). lra.
Qed.


(** A point closer than half a unit in the last place to a value whose
    significand lies strictly inside the binade rounds to that value. *)
Lemma rnd_near (x : Q) (m k : Z) :
  (2 ^ 52 < m < 2 ^ 53)%Z ->
  inject_Z m * pow2 k - pow2 (k - 1) < x ->
  x < inject_Z m * pow2 k + pow2 (k - 1) ->
  rnd x == inject_Z m * pow2 k.
Proof.
  intros [M1 M2] L U.
  pose proof (pow2_pos k) as Pk. pose proof (pow2_pos (k - 1)) as Pk1.
  pose proof (pow2_pos (- k)) as Pnk.
  assert (Hk : pow2 k == 2 * pow2 (k - 1)).
  { rewrite <- pow2_succ. replace (k - 1 + 1)%Z with k by ring. reflexivity. }
  assert (Q1 : inject_Z (2 ^ 52) + 1 <= inject_Z m).
  { rewrite <- inject_Z_succ, <- Zle_Qle. lia. }
  assert (Q2 : inject_Z m + 1 <= inject_Z (2 ^ 53)).
  { rewrite <- inject_Z_succ, <- Zle_Qle. lia. }
  rewrite <- pow2_52 in Q1. rewrite <- pow2_53 in Q2.
  assert (A : pow2 (k + 52) == pow2 52 * pow2 k).
  { rewrite <- pow2_add. replace (52 + k)%Z with (k + 52)%Z by ring. reflexivity. }
  assert (B : pow2 (k + 52 + 1) == pow2 53 * pow2 k).
  { rewrite <- pow2_add. replace (53 + k)%Z with (k + 52 + 1)%Z by ring.
    reflexivity. }
  assert (X1 : pow2 (k + 52) <= x).
  { rewrite A. apply Qlt_le_weak. apply Qle_lt_trans with (2 := L).
    assert (T : (pow2 52 + 1) * pow2 k <= inject_Z m * pow2 k)
      by (apply Qmult_le_r; assumption).
    lra. }
  assert (X2 : x < pow2 (k + 52 + 1)).
  { rewrite B. apply Qlt_le_trans with (1 := U).
    assert (T : (inject_Z m + 1) * pow2 k <= pow2 53 * pow2 k)
      by (apply Qmult_le_r; assumption).
    lra. }
  assert (Hx : 0 < x).
  { apply Qlt_le_trans with (2 := X1). apply pow2_pos. }
  rewrite (rnd_pos x Hx). unfold round_pos.
  rewrite (ilog2_unique x (k + 52) X1 X2).
  replace (52 - (k + 52))%Z with (- k)%Z by ring.
  replace (k + 52 - 52)%Z with k by ring.
  assert (I : pow2 k * pow2 (- k) == 1) by apply pow2_inv.
  assert (I1 : pow2 (k - 1) * pow2 (- k) == 1 # 2).
  { setoid_replace (1 # 2) with ((1 # 2) * (pow2 k * pow2 (- k))) by (rewrite I; ring).
    rewrite Hk. ring. }
  assert (E1 : (inject_Z m * pow2 k - pow2 (k - 1)) * pow2 (- k)
               == inject_Z m - (1 # 2)).
  { setoid_replace ((inject_Z m * pow2 k - pow2 (k - 1)) * pow2 (- k))
      with (inject_Z m * (pow2 k * pow2 (- k)) - pow2 (k - 1) * pow2 (- k)) by ring.
    rewrite I, I1. ring. }
  assert (E2 : (inject_Z m * pow2 k + pow2 (k - 1)) * pow2 (- k)
               == inject_Z m + (1 # 2)).
  { setoid_replace ((inject_Z m * pow2 k + pow2 (k - 1)) * pow2 (- k))
      with (inject_Z m * (pow2 k * pow2 (- k)) + pow2 (k - 1) * pow2 (- k)) by ring.
    rewrite I, I1. ring. }
  assert (R : rne (x * pow2 (- k)) = m).
  { apply rne_near.
    - rewrite <- E1. apply Qmult_lt_r; assumption.
    - rewrite <- E2. apply Qmult_lt_r; assumption. }
  rewrite R. reflexivity.
Qed.

End F64Facts.

(** * Geometry of the overlay *)

Module Geometry.

Import F64 F64Facts.

Lemma inject_Z_32 (n : Z) :
  inject_Z n + (31 # 32) == inject_Z (32 * n + 31) * pow2 (-5).
Proof.
  assert (E : pow2 (-5) == 1 # 32) by reflexivity.
  rewrite E, inject_Z_plus, inject_Z_mult.
  change (inject_Z 32) with 32. change (inject_Z 31) with 31. field.
Qed.

(** A value within 31/32 above an integer keeps that integer as its floor
    when rounded. *)
Lemma floor_rnd (x : Q) (n : Z) :
  (0 <= n < 2 ^ 32)%Z ->
  inject_Z n <= x -> x <= inject_Z n + (31 # 32) ->
  Qfloor (rnd x) = n.
Proof.
  intros Hn L U.
  assert (En : rnd (inject_Z n) == inject_Z n) by (apply rnd_Z; lia).
  assert (Eu : rnd (inject_Z n + (31 # 32)) == inject_Z n + (31 # 32)).
  { apply (rnd_exact _ (32 * n + 31) (-5)); [lia | apply inject_Z_32]. }
  pose proof (rnd_mono _ _ L) as L'. pose proof (rnd_mono _ _ U) as U'.
  rewrite En in L'. rewrite Eu in U'.
  apply Qfloor_unique; lra.
Qed.

Lemma inject_Z_div_mod (a b : Z) :
  (0 < b)%Z ->
  inject_Z a == inject_Z b * inject_Z (a / b) + inject_Z (a mod b)
  /\ 0 <= inject_Z (a mod b) /\ inject_Z (a mod b) <= inject_Z b - 1.
Proof.
  intros Hb. pose proof (Z.mod_pos_bound a b Hb) as [M1 M2].
  rewrite <- inject_Z_mult, <- inject_Z_plus, <- (Z.div_mod a b) by lia.
  split; [reflexivity|]. split.
  - rewrite (Zle_Qle 0) in M1. exact M1.
  - assert (M3 : (a mod b + 1 <= b)%Z) by lia.
    rewrite Zle_Qle, inject_Z_succ in M3. lra.
Qed.

Lemma inject_Z_range (W : Z) (b : Z) :
  (0 <= W < b)%Z -> 0 <= inject_Z W /\ inject_Z W < inject_Z b.
Proof.
  intros [H1 H2]. split.
  - rewrite (Zle_Qle 0) in H1. exact H1.
  - rewrite Zlt_Qlt in H2. exact H2.
Qed.

(** [Math.floor(canvas.width / 30)] is the integer quotient. *)
Lemma baseFontSize_div (W : Z) :
  (0 <= W < 2 ^ 32)%Z -> Landscape.baseFontSize W == inject_Z (W / 30).
Proof.
  intros HW. unfold Landscape.baseFontSize, floor, div, of_Z.
  destruct (inject_Z_div_mod W 30 ltac:(lia)) as (E & R1 & R2).
  change (inject_Z 30) with 30 in E, R2.
  assert (HD : (0 <= W / 30 < 2 ^ 32)%Z).
  { split; [apply Z.div_pos; lia | apply Z.div_lt_upper_bound; lia]. }
  rewrite (floor_rnd _ (W / 30) HD); [reflexivity | |].
  - apply Qle_shift_div_l; lra.
  - apply Qle_shift_div_r; lra.
Qed.

(** [Math.floor(canvas.width / 25)] is the integer quotient. *)
Lemma fontSize_div (W : Z) :
  (0 <= W < 2 ^ 32)%Z -> Portrait.fontSize W == inject_Z (W / 25).
Proof.
  intros HW. unfold Portrait.fontSize, floor, div, of_Z.
  destruct (inject_Z_div_mod W 25 ltac:(lia)) as (E & R1 & R2).
  change (inject_Z 25) with 25 in E, R2.
  assert (HD : (0 <= W / 25 < 2 ^ 32)%Z).
  { split; [apply Z.div_pos; lia | apply Z.div_lt_upper_bound; lia]. }
  rewrite (floor_rnd _ (W / 25) HD); [reflexivity | |].
  - apply Qle_shift_div_l; lra.
  - apply Qle_shift_div_r; lra.
Qed.

(** No power of two is a multiple of three. *)
Lemma pow2_mod3 (j : Z) : (0 <= j)%Z -> (2 ^ j mod 3 <> 0)%Z.
Proof.
  revert j. apply (natlike_ind (fun j => (2 ^ j mod 3 <> 0)%Z)).
  - discriminate.
  - intros j Hj IH. rewrite Z.pow_succ_r by exact Hj.
    rewrite Z.mul_mod by lia.
    pose proof (Z.mod_pos_bound (2 ^ j) 3 ltac:(lia)) as B.
    assert (C : (2 ^ j mod 3 = 1 \/ 2 ^ j mod 3 = 2)%Z) by lia.
    destruct C as [C | C]; rewrite C; discriminate.
Qed.

(** The literal [0.30] as a binary64: a little below three tenths. *)
Lemma lit_030 : lit 0.30 == 5404319552844595 # 18014398509481984.
Proof. vm_compute. reflexivity. Qed.

Lemma lit_25 : lit 2.5 == 5 # 2.
Proof. vm_compute. reflexivity. Qed.

(** The product of a multiple of ten with the literal [0.30] rounds up to
    the exact three tenths. *)
Lemma mul_030_tens (a : Z) :
  (0 < a < 2 ^ 29)%Z ->
  rnd (inject_Z (10 * a) * lit 0.30) == inject_Z (3 * a).
Proof.
  intros Ha.
  set (j := Z.log2 (3 * a)).
  pose proof (Z.log2_spec (3 * a) ltac:(lia)) as [J1 J2]. fold j in J1, J2.
  pose proof (Z.log2_nonneg (3 * a)) as J0. fold j in J0.
  assert (J3 : (j < 31)%Z).
  { apply Z.log2_lt_pow2; lia. }
  assert (NE : (2 ^ j <> 3 * a)%Z).
  { intros E. apply (pow2_mod3 j J0). rewrite E.
    rewrite Z.mul_comm. apply Z.mod_mul. lia. }
  set (m := (3 * a * 2 ^ (52 - j))%Z).
  assert (P : (0 < 2 ^ (52 - j))%Z) by (apply Z.pow_pos_nonneg; lia).
  assert (S52 : (2 ^ 52 = 2 ^ j * 2 ^ (52 - j))%Z).
  { rewrite <- Z.pow_add_r by lia. f_equal. lia. }
  assert (S53 : (2 ^ 53 = 2 ^ Z.succ j * 2 ^ (52 - j))%Z).
  { rewrite <- Z.pow_add_r by lia. f_equal. lia. }
  assert (M : (2 ^ 52 < m < 2 ^ 53)%Z).
  { unfold m. rewrite S52, S53. split; apply Z.mul_lt_mono_pos_r; lia. }
  assert (Y : inject_Z m * pow2 (j - 52) == inject_Z (3 * a)).
  { unfold m. rewrite (inject_Z_mult (3 * a)), <- pow2_Z by lia.
    rewrite <- Qmult_assoc, <- pow2_add.
    replace (52 - j + (j - 52))%Z with 0%Z by ring. rewrite pow2_0. ring. }
  rewrite <- Y.
  assert (X : inject_Z (10 * a) * lit 0.30
              == inject_Z (3 * a) - inject_Z a * pow2 (-53)).
  { rewrite lit_030, !inject_Z_mult.
    assert (E : pow2 (-53) == 1 # 9007199254740992) by reflexivity.
    rewrite E. change (inject_Z 10) with 10. change (inject_Z 3) with 3. field. }
  assert (G : inject_Z a * pow2 (-53) < pow2 (j - 52 - 1)).
  { replace (j - 52 - 1)%Z with (j + -53)%Z by ring. rewrite pow2_add.
    apply Qmult_lt_r; [apply pow2_pos|].
    rewrite pow2_Z by lia. rewrite <- Zlt_Qlt.
    rewrite Z.pow_succ_r in J2 by lia. lia. }
  assert (G0 : 0 < inject_Z a * pow2 (-53)).
  { apply Qmult_lt_0_compat; [|apply pow2_pos].
    rewrite (Zlt_Qlt 0 a) in Ha. tauto. }
  apply rnd_near; [exact M | rewrite Y, X; lra | rewrite Y, X; lra].
Qed.

(** [Math.floor(canvas.width * 0.30)] is the floor of three tenths of the
    width. *)
Lemma overlayWidth_div (W : Z) :
  (0 <= W < 2 ^ 31)%Z -> Landscape.overlayWidth W == inject_Z (3 * W / 10).
Proof.
  intros HW. unfold Landscape.overlayWidth, floor, mul, of_Z.
  destruct (Z.eq_dec (W mod 10) 0) as [T | T].
  - (* a multiple of ten *)
    assert (EW : W = (10 * (W / 10))%Z).
    { rewrite (Z.div_mod W 10) at 1 by lia. lia. }
    set (a := (W / 10)%Z) in *.
    assert (E3 : (3 * W / 10 = 3 * a)%Z).
    { rewrite EW. replace (3 * (10 * a))%Z with (3 * a * 10)%Z by ring.
      apply Z.div_mul. lia. }
    rewrite E3. rewrite EW.
    destruct (Z.eq_dec a 0) as [A0 | A0].
    + rewrite A0. vm_compute. reflexivity.
    + rewrite mul_030_tens by lia. rewrite Qfloor_Z. reflexivity.
  - (* the exact product is at least a tenth away from an integer *)
    destruct (inject_Z_div_mod (3 * W) 10 ltac:(lia)) as (E & R1 & R2).
    change (inject_Z 10) with 10 in E, R2.
    rewrite inject_Z_mult in E. change (inject_Z 3) with 3 in E.
    assert (R3 : 1 <= inject_Z ((3 * W) mod 10)).
    { assert (Z3 : (1 <= (3 * W) mod 10)%Z).
      { pose proof (Z.mod_pos_bound (3 * W) 10 ltac:(lia)).
        pose proof (Z.mod_pos_bound W 10 ltac:(lia)).
        assert ((3 * W) mod 10 <> 0)%Z; [|lia].
        rewrite Z.mul_mod by lia. intros Q0.
        assert (C : (W mod 10 = 1 \/ W mod 10 = 2 \/ W mod 10 = 3
                     \/ W mod 10 = 4 \/ W mod 10 = 5 \/ W mod 10 = 6
                     \/ W mod 10 = 7 \/ W mod 10 = 8 \/ W mod 10 = 9)%Z)
          by lia.
        destruct C as [C|[C|[C|[C|[C|[C|[C|[C|C]]]]]]]];
          rewrite C in Q0; discriminate. }
      rewrite Zle_Qle in Z3. exact Z3. }
    destruct (inject_Z_range W (2 ^ 31) HW) as [W1 W2].
    change (inject_Z (2 ^ 31)) with 2147483648 in W2.
    assert (HD : (0 <= 3 * W / 10 < 2 ^ 32)%Z).
    { split; [apply Z.div_pos; lia | apply Z.div_lt_upper_bound; lia]. }
    rewrite lit_030.
    rewrite (floor_rnd _ (3 * W / 10) HD); [reflexivity | lra | lra].
Qed.

(** [baseFontSize * 2.5] is exact. *)
Lemma itemSpacing_exact (W : Z) :
  (0 <= W < 2 ^ 32)%Z ->
  Landscape.itemSpacing W == (5 # 2) * inject_Z (W / 30).
Proof.
  intros HW. unfold Landscape.itemSpacing, mul.
  rewrite (baseFontSize_div W HW), lit_25.
  assert (HD : (0 <= W / 30 < 2 ^ 32)%Z).
  { split; [apply Z.div_pos; lia | apply Z.div_lt_upper_bound; lia]. }
  rewrite (rnd_exact _ (5 * (W / 30)) (-1)); [ring | lia |].
  assert (E : pow2 (-1) == 1 # 2) by reflexivity.
  rewrite E, inject_Z_mult. change (inject_Z 5) with 5. field.
Qed.

End Geometry.

(** * The capture routine *)

Local Opaque F64.add F64.sub F64.mul F64.div F64.floor F64.lit F64.of_Z.

Lemma draws_panel_app (a b : list CanvasOp) :
  draws_panel (a ++ b)%list = draws_panel a || draws_panel b.
Proof. apply existsb_app. Qed.

Lemma draws_band_app (a b : list CanvasOp) :
  draws_band (a ++ b)%list = draws_band a || draws_band b.
Proof. apply existsb_app. Qed.

Lemma landscape_marks (W H : Z) (t : Overlay) :
  draws_panel (Landscape.draw W H t) = true
  /\ draws_band (Landscape.draw W H t) = false.
Proof. split; reflexivity. Qed.

Lemma portrait_marks (W : Z) (t : Overlay) :
  draws_panel (Portrait.draw W t) = false
  /\ draws_band (Portrait.draw W t) = true.
Proof. split; reflexivity. Qed.

(** C1. [capturePhoto] takes the landscape layout exactly when the raster
    is strictly wider than high and the portrait layout otherwise, a
    square raster included; the overlay is the output of one of the two
    layouts, which are told apart by the panel border and the dark band,
    each drawn by one of them only. *)
Theorem capturePhoto_orientation (p : Page) :
  let W := width (video p) in
  let H := height (video p) in
  let ops := snd (capturePhoto p) in
  (isLandscape W H = true <-> (H < W)%Z)
  /\ ops = ([Resize W H; DrawImage 0 0 (F64.of_Z W) (F64.of_Z H)]
             ++ (if isLandscape W H then Landscape.draw W H (texts p)
                 else Portrait.draw W (texts p))
             ++ [export])%list
  /\ (draws_panel ops = true <-> (H < W)%Z)
  /\ (draws_band ops = true <-> (W <= H)%Z).
Proof.
  intros W H ops.
  split; [apply Z.ltb_lt|]. split; [reflexivity|].
  unfold ops, capturePhoto. fold W H. cbn [snd texts set_canvas].
  rewrite !draws_panel_app, !draws_band_app.
  destruct (isLandscape W H) eqn:B.
  - apply Z.ltb_lt in B.
    destruct (landscape_marks W H (texts p)) as [P1 P2]. rewrite P1, P2.
    cbn. split; split; intros; try reflexivity; try discriminate;
      solve [assumption | lia].
  - apply Z.ltb_ge in B.
    destruct (portrait_marks W (texts p)) as [P1 P2]. rewrite P1, P2.
    cbn. split; split; intros; try reflexivity; try discriminate;
      solve [assumption | lia].
Qed.

Example landscape_1920x1080 :
  isLandscape 1920 1080 = true
  /\ draws_panel (snd (capturePhoto (initialPage (mkSize 1920 1080)))) = true.
Proof. split; vm_compute; reflexivity. Qed.

Example portrait_1080x1920 :
  isLandscape 1080 1920 = false
  /\ draws_band (snd (capturePhoto (initialPage (mkSize 1080 1920)))) = true.
Proof. split; vm_compute; reflexivity. Qed.

Example portrait_1000x1000 :
  isLandscape 1000 1000 = false
  /\ draws_band (snd (capturePhoto (initialPage (mkSize 1000 1000)))) = true.
Proof. split; vm_compute; reflexivity. Qed.

(** C2, as stated, fails: at 1920x1080 the landscape rows are 160 pixels
    apart, 2.5 times floor(1920 / 30) = 64, and not the 190 pixels that
    2.5 times floor(1920 / 25) = 76 gives. *)
Lemma row_spacing_1920_not_from_25 :
  isLandscape 1920 1080 = true
  /\ Landscape.itemSpacing 1920 == 160
  /\ specItemSpacing 1920 == 190
  /\ ~ Landscape.itemSpacing 1920 == specItemSpacing 1920.
Proof.
  split; [reflexivity|]. split; [vm_compute; reflexivity|].
  split; [vm_compute; reflexivity|]. vm_compute. discriminate.
Qed.

(** C2, amended.  In the landscape layout the four rows start at
    [firstRowY] and each next one is drawn [itemSpacing] further down,
    where [itemSpacing] is exactly 2.5 times the landscape base font
    size, and that base font size is floor(width / 30). *)
Theorem landscape_row_spacing (p : Page) :
  let W := width (video p) in
  let H := height (video p) in
  let s := Landscape.itemSpacing W in
  let y := Landscape.firstRowY W H in
  (0 <= W < 2 ^ 31)%Z ->
  (H < W)%Z ->
  row_ys (snd (capturePhoto p)) = [y; y +! s; y +! s +! s; y +! s +! s +! s]
  /\ s == (5 # 2) * Landscape.baseFontSize W
  /\ Landscape.baseFontSize W == inject_Z (W / 30).
Proof.
  intros W H s y HW HL.
  assert (HW' : (0 <= W < 2 ^ 32)%Z) by lia.
  split; [|split].
  - unfold capturePhoto. fold W H.
    apply Z.ltb_lt in HL. unfold isLandscape. rewrite HL. reflexivity.
  - unfold s. rewrite (Geometry.itemSpacing_exact W HW').
    rewrite (Geometry.baseFontSize_div W HW'). reflexivity.
  - apply Geometry.baseFontSize_div. exact HW'.
Qed.

(** The rows of a 1920x1080 capture. *)
Lemma landscape_row_spacing_1920x1080 :
  let p := initialPage (mkSize 1920 1080) in
  let s := Landscape.itemSpacing 1920 in
  let y := Landscape.firstRowY 1920 1080 in
  row_ys (snd (capturePhoto p)) = [y; y +! s; y +! s +! s; y +! s +! s +! s]
  /\ s == (5 # 2) * Landscape.baseFontSize 1920
  /\ Landscape.baseFontSize 1920 == inject_Z (1920 / 30).
Proof.
  apply (landscape_row_spacing (initialPage (mkSize 1920 1080))).
  - simpl. lia.
  - simpl. lia.
Defined.



(** The calls of a capture depend on the frame size and the four display
    strings only. *)
Lemma capturePhoto_reads (p p' : Page) :
  video p' = video p -> texts p' = texts p ->
  snd (capturePhoto p') = snd (capturePhoto p).
Proof.
  unfold capturePhoto. cbn [snd texts set_canvas]. intros -> ->. reflexivity.
Qed.

(** C7. Two captures in succession on an unchanged frame and unchanged
    display strings make the same canvas calls, with the same geometry
    and the same texts, and leave the same page; the save actions differ
    in nothing but the file name built from the time of the save. *)
Theorem capturePhoto_twice (p : Page) (now1 now2 : Z) :
  let (p1, ops1) := capturePhoto p in
  let (p2, ops2) := capturePhoto p1 in
  ops2 = ops1
  /\ p2 = p1
  /\ video p1 = video p
  /\ texts p1 = texts p
  /\ map unnamed (saveBlob now1) = map unnamed (saveBlob now2)
  /\ In (SetDownload (filename now1)) (saveBlob now1)
  /\ In (SetDownload (filename now2)) (saveBlob now2).
Proof.
  unfold capturePhoto. destruct p as [st fm wi so pd lo tx [vw vh] cv].
  cbn [video texts width height set_canvas fst snd canvas stream facingMode
       watchId srcObject permissionDisplay loading].
  repeat split; try reflexivity.
  - cbn. tauto.
  - cbn. tauto.
Qed.

(** C6. In the landscape layout the panel is [overlayWidth] wide, and for
    every raster width the binary64 computation [Math.floor(W * 0.30)]
    gives exactly the floor of three tenths of [W]; at 1920 it gives
    576. *)
Theorem panel_width (p : Page) :
  let W := width (video p) in
  let H := height (video p) in
  (0 <= W < 2 ^ 31)%Z ->
  (H < W)%Z ->
  Landscape.overlayWidth W == inject_Z (Qfloor (0.30 * inject_Z W))
  /\ Landscape.overlayWidth 1920 == 576
  /\ In (FillRect (Landscape.overlayX W) (Landscape.overlayY W H)
                  (Landscape.overlayWidth W) (Landscape.overlayHeight W))
        (snd (capturePhoto p)).
Proof.
  intros W H HW HL. split; [|split].
  - rewrite (Geometry.overlayWidth_div W HW).
    assert (E : Qfloor (0.30 * inject_Z W) = (3 * W / 10)%Z).
    { unfold Qfloor, Qmult, inject_Z. cbn [Qnum Qden].
      change (Z.pos (100 * 1)) with (10 * 10)%Z.
      replace (30 * W)%Z with (10 * (3 * W))%Z by ring.
      apply Z.div_mul_cancel_l; lia. }
    rewrite E. reflexivity.
  - vm_compute. reflexivity.
  - apply Z.ltb_lt in HL. unfold capturePhoto. fold W H.
    unfold isLandscape. rewrite HL. cbn [snd].
    right. right. right. left. reflexivity.
Qed.

(** The panel of a 1920x1080 capture. *)
Lemma panel_width_1920 :
  let p := initialPage (mkSize 1920 1080) in
  Landscape.overlayWidth 1920 == inject_Z (Qfloor (0.30 * inject_Z 1920))
  /\ Landscape.overlayWidth 1920 == 576
  /\ In (FillRect (Landscape.overlayX 1920) (Landscape.overlayY 1920 1080)
                  (Landscape.overlayWidth 1920)
                  (Landscape.overlayHeight 1920))
        (snd (capturePhoto p)).
Proof.
  apply (panel_width (initialPage (mkSize 1920 1080))); simpl; lia.
Defined.

(** * The capture source *)

Lemma flip_involutive (f : Facing) : flip (flip f) = f.
Proof. destruct f; reflexivity. Qed.

Lemma flip_changes (f : Facing) : flip f <> f.
Proof. destruct f; discriminate. Qed.

Lemma remove_all (s : StreamId) (l : list StreamId) :
  (forall x, In x l -> x = s) -> remove Nat.eq_dec s l = [].
Proof.
  intros A. destruct (remove Nat.eq_dec s l) as [|x r] eqn:E; [reflexivity|].
  assert (I : In x (remove Nat.eq_dec s l)) by (rewrite E; left; reflexivity).
  apply in_remove in I. destruct I as [I N]. elim N. apply A. exact I.
Qed.

Lemma settled_inv (w : World) : settled w = true -> session_inv w.
Proof.
  unfold settled, session_inv.
  destruct (pending w) as [|c pe]; [|discriminate].
  destruct (live w) as [|s [|s' lv]]; [| |discriminate].
  - intros _. cbn. repeat split; try lia; try tauto.
  - destruct (stream (page w)) as [s'|]; [|discriminate].
    intros E. apply Nat.eqb_eq in E. subst s'.
    cbn. repeat split; try lia; try tauto.
    intros x [X | []]. subst x. reflexivity.
Qed.

(** [startCamera] up to its [await], called while nothing is pending. *)
Lemma startCamera_inv (by_ : Caller) (w : World) :
  session_inv w -> pending w = [] -> session_inv (startCamera by_ w).
Proof.
  intros (L & P & S & Q) E. unfold startCamera, session_inv.
  assert (LV : live (match stream (page w) with
                     | Some s => stopTracks s w
                     | None => w
                     end) = []).
  { destruct (stream (page w)) as [s|] eqn:St.
    - cbn. apply remove_all. intros x I. apply S in I. congruence.
    - destruct (live w) as [|x lv]; [reflexivity|].
      specialize (S x (or_introl eq_refl)). discriminate. }
  assert (PE : pending (match stream (page w) with
                        | Some s => stopTracks s w
                        | None => w
                        end) = []).
  { destruct (stream (page w)); cbn; exact E. }
  cbn. rewrite LV, PE. cbn. repeat split; try lia; try tauto.
Qed.

(** The continuations leave the streams and the requests alone. *)
Lemma caller_settle_frame (c : Caller) (k : Completion) (w : World) :
  live (caller_settle c k w) = live w
  /\ pending (caller_settle c k w) = pending w
  /\ stream (page (caller_settle c k w)) = stream (page w)
  /\ facingMode (page (caller_settle c k w)) = facingMode (page w).
Proof.
  destruct c, k; cbn; unfold startLocationTracking;
    try destruct (geolocation w); cbn; repeat split; reflexivity.
Qed.

Lemma settle_inv (i : nat) (r : unit + CaptureError) (w : World) :
  session_inv w -> session_inv (settle i r w).
Proof.
  intros (L & P & HS & Q). unfold settle.
  destruct (pending w) as [|c [|c' pe]] eqn:E.
  - destruct i; cbn; unfold session_inv; rewrite E; tauto.
  - assert (LV : live w = []) by (apply Q; discriminate).
    destruct i as [|i].
    + cbn [nth_error drop_nth]. destruct r as [[] | e].
      * cbn [startCamera_settle].
        destruct (caller_settle_frame c Returned
                    (on_page (startCamera_resume (nextStream w))
                       (set_nextStream (S (nextStream w))
                          (set_live (nextStream w :: live w)
                             (set_pending [] w))))) as (A & B & C & _).
        unfold session_inv. cbn in A, B, C |- *. rewrite A, B, C, LV.
        cbn. repeat split; try lia; try tauto.
        intros s [X | []]. subst s. reflexivity.
      * cbn [startCamera_settle startCamera_catch].
        destruct (caller_settle_frame c (Threw (CameraFailure e))
                    (on_page showPermissionMessage
                       (call (ConsoleError "Camera error:" (CameraFailure e))
                          (set_pending [] w)))) as (A & B & C & _).
        unfold session_inv. cbn in A, B, C |- *. rewrite A, B, C, LV.
        cbn. repeat split; try lia; try tauto.
    + cbn [nth_error]. destruct i; cbn [nth_error];
        unfold session_inv; rewrite E; tauto.
  - cbn in P. lia.
Qed.

Lemma updatePositionWith_stream (prefix : string) (c : Coords) (p : Page) :
  stream (updatePositionWith prefix c p) = stream p
  /\ facingMode (updatePositionWith prefix c p) = facingMode p
  /\ watchId (updatePositionWith prefix c p) = watchId p.
Proof.
  unfold updatePositionWith.
  destruct (coords_altitude c), (coords_accuracy c); repeat split; reflexivity.
Qed.

Lemma session_inv_frame (w w' : World) :
  live w' = live w -> pending w' = pending w ->
  stream (page w') = stream (page w) ->
  session_inv w -> session_inv w'.
Proof.
  unfold session_inv. intros -> -> ->. tauto.
Qed.

Lemma step_inv (w : World) (ev : Event) :
  session_inv w ->
  (begins_call ev = true -> pending w = []) ->
  session_inv (step w ev).
Proof.
  intros I B. destruct ev; cbn [step].
  - apply startCamera_inv; [exact I | apply B; reflexivity].
  - unfold toggleCamera. apply startCamera_inv.
    + exact I.
    + cbn. apply B. reflexivity.
  - exact I.
  - apply settle_inv. exact I.
  - apply settle_inv. exact I.
  - destruct (watchId (page w)); [|exact I].
    apply (session_inv_frame w); try reflexivity; [|exact I].
    apply (updatePositionWith_stream _ c (page w)).
  - destruct (watchId (page w)); exact I.
  - exact I.
Qed.

Lemma stops_first_all (w : World) : stops_first w.
Proof.
  intros by_ s St. unfold startCamera. rewrite St. cbn.
  split.
  - rewrite <- app_assoc. reflexivity.
  - apply remove_In.
Qed.

Lemma serial_states (w : World) (evs : list Event) :
  session_inv w -> serial w evs = true ->
  Forall (fun w' => one_session w' /\ stops_first w') (states w evs).
Proof.
  revert w. induction evs as [|ev evs IH]; intros w I S; cbn [states].
  - constructor; [|constructor]. split; [apply I | apply stops_first_all].
  - cbn [serial] in S. apply andb_prop in S. destruct S as [S1 S2].
    constructor.
    + split; [apply I | apply stops_first_all].
    + apply IH; [|exact S2]. apply step_inv; [exact I|].
      intros B. rewrite B in S1. destruct (pending w); [reflexivity|discriminate].
Qed.

(** C4, on the code.  A second click on the toggle before the first
    request has settled makes two requests.  [startCamera] stops, both
    times, the stream that [stream] holds at the call, which is stream 0;
    both requests can be fulfilled, and the stream of the first,
    replaced in [stream] by that of the second, is never stopped.
    Streams 1 and 2 then hold the device together: more than one
    session is active. *)
Theorem overlapping_toggles_two_sessions :
  let w := run freshWorld
               [RunInit; Fulfil 0; ClickToggle; ClickToggle; Fulfil 0; Fulfil 0] in
  live w = [2; 1]%nat
  /\ stream (page w) = Some 2%nat
  /\ pending w = []
  /\ filter (fun c => match c with StopTracks _ => true | _ => false end)
            (calls w)
     = [StopTracks 0%nat; StopTracks 0%nat]
  /\ ~ one_session w.
Proof.
  split; [vm_compute; reflexivity|]. split; [vm_compute; reflexivity|].
  split; [vm_compute; reflexivity|]. split; [vm_compute; reflexivity|].
  unfold one_session. vm_compute. lia.
Qed.

(** The shortest such run: the toggle is clicked while the request of
    [init] is still pending. *)
Example toggle_during_init_two_sessions :
  let w := run freshWorld [RunInit; ClickToggle; Fulfil 0; Fulfil 0] in
  live w = [1; 0]%nat /\ ~ one_session w.
Proof.
  split; [vm_compute; reflexivity|]. unfold one_session. vm_compute. lia.
Qed.

(** What [startCamera] does achieve: when every call of [init] or
    [toggleCamera] is made after the previous one has settled, at most
    one stream holds the device in every state passed through, and in
    every state [startCamera] stops the tracks of the stream held in
    [stream] before it makes the new request. *)
Lemma one_session_when_serial (w : World) (evs : list Event) :
  settled w = true ->
  serial w evs = true ->
  Forall (fun w' => one_session w' /\ stops_first w') (states w evs).
Proof.
  intros S0 S. apply serial_states; [apply settled_inv; exact S0 | exact S].
Qed.

(** A run with two toggles, a capture, a failed request and a retry. *)
Lemma one_session_when_serial_run :
  Forall (fun w' => one_session w' /\ stops_first w')
         (states freshWorld
                 [RunInit; Fulfil 0; ClickToggle; Fulfil 0; ClickCapture;
                  ClickToggle; Reject 0 NotReadableError; RunInit; Fulfil 0]).
Proof.
  apply (one_session_when_serial freshWorld); reflexivity.
Defined.


Lemma settle_facingMode (i : nat) (r : unit + CaptureError) (w : World) :
  facingMode (page (settle i r w)) = facingMode (page w).
Proof.
  unfold settle. destruct (nth_error (pending w) i) as [c|]; [|reflexivity].
  destruct r as [[] | e]; cbn [startCamera_settle startCamera_catch].
  - match goal with
    | |- facingMode (page (caller_settle c ?k ?w')) = _ =>
        destruct (caller_settle_frame c k w') as (_ & _ & _ & F)
    end.
    rewrite F. reflexivity.
  - match goal with
    | |- facingMode (page (caller_settle c ?k ?w')) = _ =>
        destruct (caller_settle_frame c k w') as (_ & _ & _ & F)
    end.
    rewrite F. reflexivity.
Qed.

Lemma startCamera_request (by_ : Caller) (w : World) :
  facingMode (page (startCamera by_ w)) = facingMode (page w)
  /\ exists cs,
      calls (startCamera by_ w)
      = (cs ++ [GetUserMedia
                  (mkConstraints (facingMode (page w)) 1920 1080 false)])%list.
Proof.
  unfold startCamera. destruct (stream (page w)) as [s|]; cbn.
  - split; [reflexivity|]. exists (calls w ++ [StopTracks s])%list. reflexivity.
  - split; [reflexivity|]. exists (calls w). reflexivity.
Qed.

(** C10. [toggleCamera] flips [facingMode] before the request is made:
    'environment' becomes 'user' and 'user' becomes 'environment', so
    the direction differs from the one before the click.  The request
    already asks for the new direction and is still pending when the
    flip is done; a failure of the request does not flip it back; a
    retry then asks for the new direction; and two toggles whose
    requests are fulfilled give the direction the page started with. *)
Theorem toggle_flip_persists (w : World) (i j : nat) (e : CaptureError) :
  let f := facingMode (page w) in
  let request := GetUserMedia (mkConstraints (flip f) 1920 1080 false) in
  let w1 := step w ClickToggle in
  let w2 := step w1 (Reject i e) in
  facingMode (page w1) = flip f
  /\ (exists cs, calls w1 = (cs ++ [request])%list)
  /\ pending w1 = (pending w ++ [ByToggle])%list
  /\ facingMode (page w2) = flip f
  /\ (exists cs, calls (step w2 RunInit) = (cs ++ [request])%list)
  /\ facingMode (page (run w [ClickToggle; Fulfil i; ClickToggle; Fulfil j])) = f
  /\ flip Environment = User
  /\ flip User = Environment
  /\ facingMode (page w1) <> f
  /\ facingMode (page w2) <> f
  /\ facingMode (page (run w [ClickToggle; Fulfil i])) <> f.
Proof.
  intros f request w1 w2.
  set (wf := on_page (fun p => set_facingMode (flip (facingMode p)) p) w).
  assert (F0 : facingMode (page wf) = flip f) by reflexivity.
  destruct (startCamera_request ByToggle wf) as [F1 [cs C1]].
  assert (E1 : w1 = startCamera ByToggle wf) by reflexivity.
  assert (F2 : facingMode (page w2) = flip f).
  { unfold w2. cbn [step]. rewrite settle_facingMode, E1, F1. exact F0. }
  split; [rewrite E1, F1; exact F0|].
  split; [exists cs; rewrite E1, C1, F0; reflexivity|].
  split.
  { rewrite E1. unfold startCamera, wf. cbn.
    destruct (stream (page w)); reflexivity. }
  split; [exact F2|].
  split.
  { destruct (startCamera_request ByInit w2) as [_ [cs' C2]].
    exists cs'. cbn [step]. unfold init. rewrite C2, F2. reflexivity. }
  split; [|split; [reflexivity|]; split; [reflexivity|]; split;
           [rewrite E1, F1, F0; apply flip_changes|]; split;
           [rewrite F2; apply flip_changes|];
           unfold run; cbn [fold_left]; fold w1; cbn [step];
           rewrite settle_facingMode, E1, F1, F0; apply flip_changes].
  - unfold run. cbn [fold_left]. fold w1. cbn [step].
    rewrite settle_facingMode. unfold toggleCamera.
    match goal with
    | |- facingMode (page (startCamera ByToggle ?w')) = _ =>
        destruct (startCamera_request ByToggle w') as [F3 _]
    end.
    rewrite F3. cbn [on_page set_page page set_facingMode facingMode].
    rewrite settle_facingMode, E1, F1, F0. apply flip_involutive.
Qed.

(** * The location tracker *)

Lemma length_string_of_list_ascii (l : list ascii) :
  String.length (string_of_list_ascii l) = List.length l.
Proof. induction l as [|a l IH]; cbn; [reflexivity | rewrite IH; reflexivity]. Qed.

(** [toFixed] with a positive digit count [f]: an optional minus sign,
    at least one integer digit, the point, and exactly [f] digits. *)
Lemma toFixed_shape (x : Q) (f : nat) :
  (0 < f)%nat ->
  exists (sign : string) (a b : list ascii),
    JS.toFixed x f
    = sign ++ string_of_list_ascii a ++ "." ++ string_of_list_ascii b
    /\ (sign = EmptyString \/ sign = "-")
    /\ (0 < List.length a)%nat
    /\ List.length b = f.
Proof.
  intros Hf. unfold JS.toFixed.
  set (n := Qfloor _). set (m0 := JS.digits n).
  set (m := if (List.length m0 <=? f)%nat
            then (repeat JS.zero_char (f + 1 - List.length m0) ++ m0)%list
            else m0).
  assert (K : (f < List.length m)%nat).
  { unfold m. destruct (Nat.leb_spec (List.length m0) f) as [L | L].
    - rewrite length_app, repeat_length. lia.
    - exact L. }
  destruct f as [|f']; [lia|].
  exists (if negb (Qle_bool 0 x) then "-" else EmptyString),
         (firstn (List.length m - S f') m), (skipn (List.length m - S f') m).
  split; [|split; [|split]].
  - destruct (negb (Qle_bool 0 x)); reflexivity.
  - destruct (negb (Qle_bool 0 x)); auto.
  - rewrite length_firstn. lia.
  - rewrite length_skipn. lia.
Qed.

(** A missing altitude or accuracy is shown as N/A, whatever the other
    fields hold. *)
Lemma updatePosition_null (prefix : string) (c : Coords) (p : Page) :
  (coords_altitude c = None ->
   altitude (texts (updatePositionWith prefix c p)) = "N/A")
  /\ (coords_accuracy c = None ->
      accuracy (texts (updatePositionWith prefix c p)) = "N/A").
Proof.
  unfold updatePositionWith.
  split; intros E; rewrite E; destruct c as [la lo [al|] [ac|]];
    try discriminate; reflexivity.
Qed.

Lemma updatePosition_texts (prefix : string) (c : Coords) (p : Page) :
  let t := texts (updatePositionWith prefix c p) in
  coordinates t
  = JS.toFixed (latitude c) 6 ++ ", " ++ JS.toFixed (longitude c) 6
  /\ altitude t = match coords_altitude c with
                  | Some a => JS.toFixed a 1 ++ " m"
                  | None => "N/A"
                  end
  /\ accuracy t = match coords_accuracy c with
                  | Some a => prefix ++ JS.toFixed a 1 ++ " m"
                  | None => "N/A"
                  end
  /\ datetime t = datetime (texts p).
Proof.
  unfold updatePositionWith.
  destruct (coords_altitude c), (coords_accuracy c); repeat split; reflexivity.
Qed.

(** C5 at the fix 37.422999, -122.084057, altitude 123.456, accuracy 5.2.
    The coordinates read 37.422999, -122.084057 and the altitude 123.5 m.
    The accuracy text of the current script starts with the four bytes
    C3 82 C2 B1 and so is not the plus-minus sign followed by 5.2 m;
    the older revision of the script shows exactly that. *)
Theorem accuracy_text_garbled (p : Page) :
  let c := mkCoords (F64.lit 37.422999) (F64.lit (-122.084057))
                    (Some (F64.lit 123.456)) (Some (F64.lit 5.2)) in
  let t := texts (updatePosition c p) in
  coordinates t = "37.422999, -122.084057"
  /\ altitude t = "123.5 m"
  /\ accuracy t = JS.a_circumflex ++ JS.plus_minus ++ "5.2 m"
  /\ accuracy t <> JS.plus_minus ++ "5.2 m"
  /\ accuracy (texts (ScriptJs.updatePosition c p)) = JS.plus_minus ++ "5.2 m".
Proof.
  intros c t.
  destruct (updatePosition_texts (JS.a_circumflex ++ JS.plus_minus) c p)
    as (C & A & R & _).
  destruct (updatePosition_texts JS.plus_minus c p) as (_ & _ & R' & _).
  fold (updatePosition c p) in C, A, R. fold t in C, A, R.
  fold (ScriptJs.updatePosition c p) in R'.
  rewrite C, A, R, R'.
  repeat split; try (vm_compute; reflexivity).
  vm_compute. discriminate.
Qed.

(** C9. The error callback sets the coordinate display to the
    unavailable text and does nothing to the subscription: the handle in
    [watchId] is kept, the host is asked for nothing but the log entry,
    and the next fix delivered to [updatePosition] sets the coordinate
    display again. *)
Theorem location_error_keeps_watch (e : LocationError) (c : Coords) (w : World) :
  let w1 := handleLocationError e w in
  coordinates (texts (page w1)) = "Location unavailable"
  /\ watchId (page w1) = watchId (page w)
  /\ nextWatch w1 = nextWatch w
  /\ calls w1 = (calls w ++ [ConsoleError "Location error:" (LocationFailure e)])%list
  /\ coordinates (texts (updatePosition c (page w1)))
     = JS.toFixed (latitude c) 6 ++ ", " ++ JS.toFixed (longitude c) 6
  /\ watchId (updatePosition c (page w1)) = watchId (page w).
Proof.
  intros w1.
  destruct (updatePosition_texts (JS.a_circumflex ++ JS.plus_minus) c (page w1))
    as (C & _).
  destruct (updatePositionWith_stream (JS.a_circumflex ++ JS.plus_minus) c (page w1))
    as (_ & _ & Wd).
  repeat split; try reflexivity.
  - exact C.
  - exact Wd.
Qed.

Lemma location_events (id : Z) (e : LocationError) (c : Coords) (w : World) :
  watchId (page w) = Some id ->
  step w (PositionError e) = handleLocationError e w
  /\ step (step w (PositionError e)) (PositionFix c)
     = on_page (updatePosition c) (handleLocationError e w).
Proof.
  intros E. cbn [step]. rewrite E. split; [reflexivity|].
  assert (E' : watchId (page (handleLocationError e w)) = Some id) by exact E.
  rewrite E'. reflexivity.
Qed.

(** * More about the event loop *)

Ltac open_world w :=
  destruct w as [[?st ?fm ?wi ?so ?pd ?lo ?tx ?vd ?cv] ?lv ?ns ?pe ?cl ?geo ?nw ?ds ?ts].

(** What one event does to [facingMode], [watchId] and the agreement of
    [stream] with [video.srcObject]. *)
Lemma settle_page (i : nat) (r : unit + CaptureError) (w : World) :
  facingMode (page (settle i r w)) = facingMode (page w)
  /\ (watchId (page w) <> None -> watchId (page (settle i r w)) <> None)
  /\ (stream (page w) = srcObject (page w) ->
      stream (page (settle i r w)) = srcObject (page (settle i r w))).
Proof.
  open_world w. unfold settle. cbn.
  destruct (nth_error pe i) as [c|]; [|cbn; tauto].
  destruct r as [[] | e]; destruct c; cbn;
    unfold startLocationTracking; cbn; try destruct geo; cbn;
    repeat split; try tauto; try discriminate; try reflexivity.
Qed.

Lemma startCamera_page (by_ : Caller) (w : World) :
  page (startCamera by_ w) = page w.
Proof.
  unfold startCamera. destruct (stream (page w)); reflexivity.
Qed.

Lemma step_facingMode (w : World) (ev : Event) :
  facingMode (page (step w ev))
  = if is_toggle ev then flip (facingMode (page w)) else facingMode (page w).
Proof.
  destruct ev; cbn [step is_toggle].
  - unfold init. rewrite startCamera_page. reflexivity.
  - unfold toggleCamera. rewrite startCamera_page. reflexivity.
  - reflexivity.
  - apply settle_page.
  - apply settle_page.
  - destruct (watchId (page w)); [|reflexivity].
    apply (updatePositionWith_stream _ c (page w)).
  - destruct (watchId (page w)); reflexivity.
  - reflexivity.
Qed.

Lemma step_watchId (w : World) (ev : Event) :
  watchId (page w) <> None -> watchId (page (step w ev)) <> None.
Proof.
  intros Hw. destruct ev; cbn [step].
  - unfold init. rewrite startCamera_page. exact Hw.
  - unfold toggleCamera. rewrite startCamera_page. exact Hw.
  - exact Hw.
  - apply settle_page. exact Hw.
  - apply settle_page. exact Hw.
  - destruct (watchId (page w)) eqn:E; [|elim Hw; reflexivity].
    destruct (updatePositionWith_stream (JS.a_circumflex ++ JS.plus_minus)
                c (page w)) as (_ & _ & Wd).
    unfold on_page, set_page. cbn [page]. unfold updatePosition.
    rewrite Wd, E. discriminate.
  - destruct (watchId (page w)) eqn:E; [|elim Hw; reflexivity].
    cbn. rewrite E. discriminate.
  - exact Hw.
Qed.

Lemma updatePositionWith_srcObject (prefix : string) (c : Coords) (p : Page) :
  srcObject (updatePositionWith prefix c p) = srcObject p.
Proof.
  unfold updatePositionWith.
  destruct (coords_altitude c), (coords_accuracy c); reflexivity.
Qed.

Lemma step_preview (w : World) (ev : Event) :
  stream (page w) = srcObject (page w) ->
  stream (page (step w ev)) = srcObject (page (step w ev)).
Proof.
  intros Hs. destruct ev; cbn [step].
  - unfold init. rewrite startCamera_page. exact Hs.
  - unfold toggleCamera. rewrite startCamera_page. exact Hs.
  - exact Hs.
  - apply settle_page. exact Hs.
  - apply settle_page. exact Hs.
  - destruct (watchId (page w)); [|exact Hs].
    unfold on_page, set_page. cbn [page]. unfold updatePosition.
    rewrite updatePositionWith_srcObject.
    destruct (updatePositionWith_stream (JS.a_circumflex ++ JS.plus_minus)
                c (page w)) as (St & _).
    rewrite St. exact Hs.
  - destruct (watchId (page w)); exact Hs.
  - exact Hs.
Qed.

(** X1. Whatever the host delivers and in whatever order, requests
    overlapping or failing included, the facing direction after a run is
    the initial one when the toggle was clicked an even number of times
    and the opposite one otherwise, 'user' for 'environment' and
    'environment' for 'user': it equals the initial direction exactly
    when the number of clicks is even. *)
Theorem facingMode_parity (w : World) (evs : list Event) :
  facingMode (page (run w evs))
  = (if Nat.even (count_toggles evs) then facingMode (page w)
     else flip (facingMode (page w)))
  /\ (facingMode (page (run w evs)) = facingMode (page w)
      <-> Nat.even (count_toggles evs) = true)
  /\ flip Environment = User
  /\ flip User = Environment.
Proof.
  assert (P : forall evs w,
             facingMode (page (run w evs))
             = if Nat.even (count_toggles evs) then facingMode (page w)
               else flip (facingMode (page w))).
  { clear w evs. unfold run, count_toggles.
    induction evs as [|ev evs IH]; intros w; [reflexivity|].
    cbn [fold_left filter]. rewrite IH, step_facingMode.
    destruct (is_toggle ev); [|reflexivity].
    cbn [List.length]. rewrite Nat.even_succ, <- Nat.negb_even.
    destruct (Nat.even (List.length (filter is_toggle evs)));
      cbn [negb]; [reflexivity | apply flip_involutive]. }
  split; [apply P|]. split; [|split; reflexivity].
  rewrite P. destruct (Nat.even (count_toggles evs)).
  - split; reflexivity.
  - split; [intros E; elim (flip_changes _ E) | discriminate].
Qed.

(** X2. The script never gives up a location subscription: once
    [watchId] holds a handle it holds one after every further run of
    events, location errors and camera failures included. *)
Theorem watch_never_cleared (w : World) (evs : list Event) :
  watchId (page w) <> None -> watchId (page (run w evs)) <> None.
Proof.
  revert w. unfold run. induction evs as [|ev evs IH]; intros w Hw; [exact Hw|].
  cbn [fold_left]. apply IH. apply step_watchId. exact Hw.
Qed.

(** A subscribed page after an error, a failed toggle and a retry. *)
Lemma watch_never_cleared_run :
  let w := run freshWorld [RunInit; Fulfil 0] in
  watchId (page (run w [PositionError TIMEOUT; ClickToggle;
                        Reject 0 NotReadableError; RunInit;
                        Reject 0 NotAllowedError])) <> None.
Proof.
  apply (watch_never_cleared (run freshWorld [RunInit; Fulfil 0])).
  vm_compute. discriminate.
Defined.

(** X3. The preview always shows the stream the script holds: when
    [video.srcObject] and [stream] agree, as they do on a fresh page,
    they agree after every run of events. *)
Theorem preview_shows_held_stream (w : World) (evs : list Event) :
  stream (page w) = srcObject (page w) ->
  stream (page (run w evs)) = srcObject (page (run w evs)).
Proof.
  revert w. unfold run. induction evs as [|ev evs IH]; intros w Hs; [exact Hs|].
  cbn [fold_left]. apply IH. apply step_preview. exact Hs.
Qed.

(** The fresh page through overlapping toggles. *)
Lemma preview_shows_held_stream_run :
  let evs := [RunInit; Fulfil 0; ClickToggle; ClickToggle; Fulfil 1; Fulfil 0] in
  stream (page (run freshWorld evs)) = srcObject (page (run freshWorld evs)).
Proof.
  apply (preview_shows_held_stream freshWorld). reflexivity.
Defined.

(** X4. When the request made by [init] is fulfilled and geolocation is
    available, the new stream is installed and live, the prompt is
    hidden, a high-accuracy watch with a 5000 ms timeout and no cached
    fixes is subscribed and its handle stored, the clock shows the time
    at once and a 1000 ms interval is set, in that order.  An earlier
    subscription or interval, if there is one, is not cleared. *)
Theorem init_fulfilled (w : World) (i : nat) :
  geolocation w = true ->
  nth_error (pending w) i = Some ByInit ->
  let w' := step w (Fulfil i) in
  stream (page w') = Some (nextStream w)
  /\ srcObject (page w') = Some (nextStream w)
  /\ live w' = (nextStream w :: live w)%list
  /\ permissionDisplay (page w') = "none"
  /\ watchId (page w') = Some (nextWatch w)
  /\ nextWatch w' = (nextWatch w + 1)%Z
  /\ datetime (texts (page w')) = dateStr w ++ " " ++ timeStr w
  /\ calls w' = (calls w ++ [WatchPosition true 5000 0; SetInterval 1000])%list.
Proof.
  intros G P. open_world w. cbn in G, P |- *. subst geo.
  unfold settle. cbn. rewrite P. cbn.
  rewrite <- app_assoc. repeat split; reflexivity.
Qed.

(** A second [init] fulfilled on a page that is already tracking. *)
Lemma init_fulfilled_again :
  let w := run freshWorld [RunInit; Fulfil 0; RunInit] in
  let w' := step w (Fulfil 0) in
  stream (page w') = Some (nextStream w)
  /\ srcObject (page w') = Some (nextStream w)
  /\ live w' = (nextStream w :: live w)%list
  /\ permissionDisplay (page w') = "none"
  /\ watchId (page w') = Some (nextWatch w)
  /\ nextWatch w' = (nextWatch w + 1)%Z
  /\ datetime (texts (page w')) = dateStr w ++ " " ++ timeStr w
  /\ calls w' = (calls w ++ [WatchPosition true 5000 0; SetInterval 1000])%list.
Proof.
  apply (init_fulfilled (run freshWorld [RunInit; Fulfil 0; RunInit]) 0);
    reflexivity.
Defined.

(** X5. When the request made by [init] is fulfilled and the host has
    no geolocation, the coordinate display reads Geolocation not
    supported, no watch is subscribed and [watchId] is left as it was;
    the camera is installed and the clock is started all the same. *)
Theorem init_fulfilled_without_geolocation (w : World) (i : nat) :
  geolocation w = false ->
  nth_error (pending w) i = Some ByInit ->
  let w' := step w (Fulfil i) in
  coordinates (texts (page w')) = "Geolocation not supported"
  /\ watchId (page w') = watchId (page w)
  /\ nextWatch w' = nextWatch w
  /\ stream (page w') = Some (nextStream w)
  /\ permissionDisplay (page w') = "none"
  /\ datetime (texts (page w')) = dateStr w ++ " " ++ timeStr w
  /\ calls w' = (calls w ++ [SetInterval 1000])%list.
Proof.
  intros G P. open_world w. cbn in G, P |- *. subst geo.
  unfold settle. cbn. rewrite P. cbn.
  repeat split; reflexivity.
Qed.

(** The first [init] of a page without geolocation. *)
Lemma init_fulfilled_without_geolocation_run :
  let w := step (initialWorld false EmptyString EmptyString) RunInit in
  let w' := step w (Fulfil 0) in
  coordinates (texts (page w')) = "Geolocation not supported"
  /\ watchId (page w') = watchId (page w)
  /\ nextWatch w' = nextWatch w
  /\ stream (page w') = Some (nextStream w)
  /\ permissionDisplay (page w') = "none"
  /\ datetime (texts (page w')) = dateStr w ++ " " ++ timeStr w
  /\ calls w' = (calls w ++ [SetInterval 1000])%list.
Proof.
  apply (init_fulfilled_without_geolocation
           (step (initialWorld false EmptyString EmptyString) RunInit) 0);
    reflexivity.
Defined.

(** X6. A toggle whose request fails does not bring the previous camera
    back: its tracks were stopped before the request and stay stopped, so
    no stream holds the device, while [stream] and the preview still
    refer to the stopped stream; the prompt is shown and the rejection
    reaches nobody but the log. *)
Theorem failed_toggle_leaves_no_camera
        (w : World) (s : StreamId) (e : CaptureError) :
  settled w = true ->
  stream (page w) = Some s ->
  let w' := step (step w ClickToggle) (Reject 0 e) in
  live w' = []
  /\ pending w' = []
  /\ stream (page w') = Some s
  /\ srcObject (page w') = srcObject (page w)
  /\ permissionDisplay (page w') = "flex"
  /\ calls w'
     = (calls w
        ++ [StopTracks s;
            GetUserMedia
              (mkConstraints (flip (facingMode (page w))) 1920 1080 false);
            ConsoleError "Camera error:" (CameraFailure e);
            UnhandledRejection (CameraFailure e)])%list.
Proof.
  intros S St. open_world w. cbn in S, St |- *. subst st.
  unfold settled in S. cbn in S.
  destruct pe as [|c pe]; [|discriminate].
  assert (L : remove Nat.eq_dec s lv = []).
  { destruct lv as [|x [|y lv]]; [reflexivity | | discriminate].
    apply Nat.eqb_eq in S. subst x. cbn.
    destruct (Nat.eq_dec s s) as [_ | N]; [reflexivity | elim N; reflexivity]. }
  unfold toggleCamera, startCamera, settle. cbn. rewrite L.
  repeat rewrite <- app_assoc. repeat split; reflexivity.
Qed.

(** A toggle that fails on a page showing the back camera. *)
Lemma failed_toggle_leaves_no_camera_run :
  let w := run freshWorld [RunInit; Fulfil 0] in
  let w' := step (step w ClickToggle) (Reject 0 NotReadableError) in
  live w' = []
  /\ pending w' = []
  /\ stream (page w') = Some 0%nat
  /\ srcObject (page w') = srcObject (page w)
  /\ permissionDisplay (page w') = "flex"
  /\ calls w'
     = (calls w
        ++ [StopTracks 0%nat;
            GetUserMedia
              (mkConstraints (flip (facingMode (page w))) 1920 1080 false);
            ConsoleError "Camera error:" (CameraFailure NotReadableError);
            UnhandledRejection (CameraFailure NotReadableError)])%list.
Proof.
  apply (failed_toggle_leaves_no_camera (run freshWorld [RunInit; Fulfil 0])
           0%nat NotReadableError); reflexivity.
Defined.

(** * More about the texts *)

Lemma nilempty_digits (d : Decimal.uint) :
  Forall (fun c => is_digit c = true)
         (list_ascii_of_string (NilEmpty.string_of_uint d)).
Proof.
  induction d; cbn [NilEmpty.string_of_uint list_ascii_of_string];
    constructor; solve [reflexivity | assumption].
Qed.

Lemma digits_are_digits (n : Z) :
  Forall (fun c => is_digit c = true) (JS.digits n).
Proof.
  unfold JS.digits, NilZero.string_of_uint.
  destruct (N.to_uint (Z.to_N n)) eqn:E; try (rewrite <- E; apply nilempty_digits).
  cbn. constructor; [reflexivity | constructor].
Qed.

Lemma to_uint_nonnil (n : N) : N.to_uint n <> Decimal.Nil.
Proof.
  destruct n as [|p]; [discriminate | apply DecimalPos.Unsigned.to_uint_nonnil].
Qed.

Lemma digits_inj (a b : Z) :
  (0 <= a)%Z -> (0 <= b)%Z -> JS.digits a = JS.digits b -> a = b.
Proof.
  intros Ha Hb E. unfold JS.digits in E.
  apply (f_equal string_of_list_ascii) in E.
  rewrite !string_of_list_ascii_of_string in E.
  assert (U : N.to_uint (Z.to_N a) = N.to_uint (Z.to_N b)).
  { pose proof (to_uint_nonnil (Z.to_N a)) as Na.
    pose proof (to_uint_nonnil (Z.to_N b)) as Nb.
    unfold NilZero.string_of_uint in E.
    destruct (N.to_uint (Z.to_N a)) eqn:Ea; [elim Na; reflexivity | ..];
      destruct (N.to_uint (Z.to_N b)) eqn:Eb; try (elim Nb; reflexivity);
      apply (f_equal NilEmpty.uint_of_string) in E;
      rewrite !NilEmpty.usu in E; congruence. }
  apply DecimalN.Unsigned.to_uint_inj in U.
  rewrite <- (Z2N.id a Ha), <- (Z2N.id b Hb), U. reflexivity.
Qed.

(** The parts of a [toFixed] text. *)
Lemma toFixed_parts (x : Q) (f : nat) :
  (0 < f)%nat ->
  exists (sign : string) (a b : list ascii),
    JS.toFixed x f = decimal_text sign a b /\ decimal_parts f sign a b.
Proof.
  intros Hf. unfold JS.toFixed, decimal_text, decimal_parts.
  set (n := Qfloor _). set (m0 := JS.digits n).
  set (m := if (List.length m0 <=? f)%nat
            then (repeat JS.zero_char (f + 1 - List.length m0) ++ m0)%list
            else m0).
  assert (K : (f < List.length m)%nat).
  { unfold m. destruct (Nat.leb_spec (List.length m0) f) as [L | L].
    - rewrite length_app, repeat_length. lia.
    - exact L. }
  assert (D : Forall (fun c => is_digit c = true) m).
  { unfold m. destruct (List.length m0 <=? f)%nat.
    - apply Forall_app. split; [|apply digits_are_digits].
      apply Forall_forall. intros c I. apply repeat_spec in I. subst c.
      reflexivity.
    - apply digits_are_digits. }
  destruct f as [|f']; [lia|].
  exists (if negb (Qle_bool 0 x) then "-" else EmptyString),
         (firstn (List.length m - S f') m), (skipn (List.length m - S f') m).
  split; [destruct (negb (Qle_bool 0 x)); reflexivity|].
  split; [destruct (negb (Qle_bool 0 x)); auto|].
  split.
  { intros E. apply (f_equal (@List.length ascii)) in E.
    rewrite length_firstn in E. cbn in E. lia. }
  split; [rewrite length_skipn; lia|].
  split.
  - rewrite <- (firstn_skipn (List.length m - S f') m) in D.
    apply Forall_app in D. tauto.
  - rewrite <- (firstn_skipn (List.length m - S f') m) in D.
    apply Forall_app in D. tauto.
Qed.

(** X7. For every fix whose latitude and longitude are below 10^21 in
    magnitude, as every coordinate in degrees is, the coordinate display
    is the latitude, a comma and a space, and the longitude, each written
    as an optional minus sign, at least one digit, the point and exactly
    six digits. *)
Theorem coordinates_text_shape (c : Coords) (p : Page) :
  - inject_Z (10 ^ 21) < latitude c -> latitude c < inject_Z (10 ^ 21) ->
  - inject_Z (10 ^ 21) < longitude c -> longitude c < inject_Z (10 ^ 21) ->
  exists s1 a1 b1 s2 a2 b2,
    coordinates (texts (updatePosition c p))
    = decimal_text s1 a1 b1 ++ ", " ++ decimal_text s2 a2 b2
    /\ decimal_parts 6 s1 a1 b1
    /\ decimal_parts 6 s2 a2 b2.
Proof.
  intros _ _ _ _.
  destruct (toFixed_parts (latitude c) 6 ltac:(lia)) as (s1 & a1 & b1 & E1 & P1).
  destruct (toFixed_parts (longitude c) 6 ltac:(lia)) as (s2 & a2 & b2 & E2 & P2).
  exists s1, a1, b1, s2, a2, b2.
  destruct (updatePosition_texts (JS.a_circumflex ++ JS.plus_minus) c p)
    as (C & _).
  fold (updatePosition c p) in C. rewrite C, E1, E2. tauto.
Qed.

(** The fix 37.422999, -122.084057. *)
Lemma coordinates_text_shape_fix :
  let c := mkCoords (F64.lit 37.422999) (F64.lit (-122.084057))
                    (Some (F64.lit 123.456)) (Some (F64.lit 5.2)) in
  exists s1 a1 b1 s2 a2 b2,
    coordinates (texts (updatePosition c (initialPage (mkSize 0 0))))
    = decimal_text s1 a1 b1 ++ ", " ++ decimal_text s2 a2 b2
    /\ decimal_parts 6 s1 a1 b1
    /\ decimal_parts 6 s2 a2 b2.
Proof.
  apply (coordinates_text_shape
           (mkCoords (F64.lit 37.422999) (F64.lit (-122.084057))
                     (Some (F64.lit 123.456)) (Some (F64.lit 5.2)))
           (initialPage (mkSize 0 0))); vm_compute; reflexivity.
Defined.

(** X8. Nothing of an earlier fix survives the next one: two fixes in a
    row leave the page that the second alone leaves, whichever of their
    altitudes and accuracies are missing. *)
Theorem updatePosition_overwrites (c1 c2 : Coords) (p : Page) :
  updatePosition c2 (updatePosition c1 p) = updatePosition c2 p.
Proof.
  unfold updatePosition, updatePositionWith.
  destruct p as [st fm wi so pd lo [tc ta tr td] vd cv].
  destruct (coords_altitude c1), (coords_accuracy c1),
    (coords_altitude c2), (coords_accuracy c2); reflexivity.
Qed.

(** X9. A location error replaces the coordinate display only: after a
    fix and then an error the coordinates read Location unavailable
    while the altitude and the accuracy still show the values of that
    last fix. *)
Theorem error_keeps_last_altitude
        (w : World) (id : Z) (c : Coords) (e : LocationError) :
  watchId (page w) = Some id ->
  let t := texts (page (run w [PositionFix c; PositionError e])) in
  coordinates t = "Location unavailable"
  /\ altitude t = altitude (texts (updatePosition c (page w)))
  /\ accuracy t = accuracy (texts (updatePosition c (page w)))
  /\ datetime t = datetime (texts (page w)).
Proof.
  intros E. unfold run. cbn [fold_left step]. rewrite E.
  assert (E' : watchId (page (on_page (updatePosition c) w)) = Some id).
  { destruct (updatePositionWith_stream (JS.a_circumflex ++ JS.plus_minus)
                c (page w)) as (_ & _ & Wd).
    unfold on_page, set_page. cbn [page]. unfold updatePosition.
    rewrite Wd. exact E. }
  rewrite E'.
  destruct (updatePosition_texts (JS.a_circumflex ++ JS.plus_minus) c (page w))
    as (_ & _ & _ & D).
  repeat split; try reflexivity. exact D.
Qed.

(** A fix with an altitude, then a timeout. *)
Lemma error_keeps_last_altitude_run :
  let w := run freshWorld [RunInit; Fulfil 0] in
  let c := mkCoords (F64.lit 37.422999) (F64.lit (-122.084057))
                    (Some (F64.lit 123.456)) None in
  let t := texts (page (run w [PositionFix c; PositionError TIMEOUT])) in
  coordinates t = "Location unavailable"
  /\ altitude t = altitude (texts (updatePosition c (page w)))
  /\ accuracy t = accuracy (texts (updatePosition c (page w)))
  /\ datetime t = datetime (texts (page w)).
Proof.
  apply (error_keeps_last_altitude (run freshWorld [RunInit; Fulfil 0]) 1).
  reflexivity.
Defined.

(** X10. The texts burnt into a capture are the brand line and the four
    display strings as the page shows them at that moment: label and
    value drawn apart in the landscape layout, joined by a colon in the
    portrait layout. *)
Theorem capture_draws_display_texts (p : Page) :
  let t := texts p in
  drawn_texts (snd (capturePhoto p))
  = if isLandscape (width (video p)) (height (video p))
    then ["GPS Cam by solvepao research";
          "Coordinates"; coordinates t; "Altitude"; altitude t;
          "Accuracy"; accuracy t; "Date & Time"; datetime t]
    else ["GPS Cam by solvepao research";
          "Coordinates: " ++ coordinates t; "Altitude: " ++ altitude t;
          "Accuracy: " ++ accuracy t; "Date & Time: " ++ datetime t].
Proof.
  intros t. unfold capturePhoto. cbn [snd texts set_canvas]. fold t.
  destruct (isLandscape (width (video p)) (height (video p))); reflexivity.
Qed.

(** X11. The older revision draws the top band and never the panel,
    whatever the shape of the frame, under the brand SolvePao Research
    and with the four display strings joined to their labels. *)
Theorem older_capture_always_band (p : Page) :
  let t := texts p in
  let ops := snd (ScriptJs.capturePhoto p) in
  draws_band ops = true
  /\ draws_panel ops = false
  /\ drawn_texts ops
     = ["SolvePao Research";
        "Coordinates: " ++ coordinates t; "Altitude: " ++ altitude t;
        "Accuracy: " ++ accuracy t; "Date & Time: " ++ datetime t].
Proof.
  intros t ops. repeat split; reflexivity.
Qed.

Lemma append_inv_head (s a b : string) : s ++ a = s ++ b -> a = b.
Proof.
  induction s as [|c s IH]; cbn; intros E; [exact E|].
  injection E as E. apply IH. exact E.
Qed.

Lemma list_ascii_of_string_app (a b : string) :
  list_ascii_of_string (a ++ b)
  = (list_ascii_of_string a ++ list_ascii_of_string b)%list.
Proof.
  induction a as [|c a IH]; cbn; [reflexivity | rewrite IH; reflexivity].
Qed.

Lemma append_inv_tail (s a b : string) : a ++ s = b ++ s -> a = b.
Proof.
  intros E. apply (f_equal list_ascii_of_string) in E.
  rewrite !list_ascii_of_string_app in E. apply app_inv_tail in E.
  apply (f_equal string_of_list_ascii) in E.
  rewrite !string_of_list_ascii_of_string in E. exact E.
Qed.

(** X12. Saves made at different milliseconds get different file
    names. *)
Theorem filename_distinct (now1 now2 : Z) :
  (0 <= now1)%Z -> (0 <= now2)%Z -> now1 <> now2 ->
  filename now1 <> filename now2.
Proof.
  intros H1 H2 N E. apply N. unfold filename, JS.string_of_int in E.
  apply Z.ltb_ge in H1 as B1. apply Z.ltb_ge in H2 as B2.
  rewrite B1, B2 in E.
  apply append_inv_head, append_inv_tail in E.
  apply (f_equal list_ascii_of_string) in E.
  rewrite !list_ascii_of_string_of_list_ascii in E.
  apply digits_inj; assumption.
Qed.

(** Two saves one millisecond apart. *)
Lemma filename_distinct_next :
  filename 1700000000000 <> filename 1700000000001.
Proof.
  apply (filename_distinct 1700000000000 1700000000001); lia.
Defined.

(** * Touches *)

Local Transparent F64.add F64.sub F64.mul F64.div F64.floor F64.lit F64.of_Z.

Lemma touchend_exact (now last : Z) :
  (0 <= now < 2 ^ 52)%Z -> (0 <= last < 2 ^ 52)%Z ->
  touchend now last = ((now - last <=? 300)%Z, now).
Proof.
  intros Hn Hl. unfold touchend, F64.sub, F64.of_Z. f_equal.
  assert (E : F64.rnd (inject_Z now - inject_Z last) == inject_Z (now - last)).
  { unfold Qminus. rewrite <- inject_Z_opp, <- inject_Z_plus.
    apply F64Facts.rnd_Z. lia. }
  destruct (Z.leb_spec (now - last) 300) as [L | L].
  - apply Qle_bool_iff. rewrite E. change 300 with (inject_Z 300).
    rewrite <- Zle_Qle. exact L.
  - destruct (Qle_bool _ 300) eqn:B; [|reflexivity].
    apply Qle_bool_iff in B. rewrite E in B. change 300 with (inject_Z 300) in B.
    rewrite <- Zle_Qle in B. lia.
Qed.

(** X13. In a series of touches the default action of a touch is
    prevented exactly when the touch ends at most 300 ms after the one
    before it, whether or not that one was itself prevented; the first is
    measured from the time in [lastTouchEnd].  Times are millisecond
    counts below 2^52, on which the subtraction of Numbers is exact. *)
Theorem touches_prevented (last : Z) (times : list Z) :
  Forall (fun t => (0 <= t < 2 ^ 52)%Z) (last :: times) ->
  touches last times = quick_after last times.
Proof.
  revert last. induction times as [|now rest IH]; intros last F; [reflexivity|].
  inversion F as [|x l Hl F']; subst. inversion F' as [|y l' Hn F'']; subst.
  cbn [touches quick_after]. rewrite (touchend_exact now last Hn Hl).
  rewrite IH; [reflexivity | exact F'].
Qed.

(** A double tap, a third tap and a later touch, on a page just loaded. *)
Lemma touches_prevented_taps :
  touches 0 [1700000000000; 1700000000200; 1700000000400; 1700000001000]%Z
  = quick_after 0 [1700000000000; 1700000000200; 1700000000400;
                   1700000001000]%Z.
Proof.
  apply (touches_prevented 0
           [1700000000000; 1700000000200; 1700000000400; 1700000001000]%Z).
  repeat constructor; lia.
Defined.

(** * Error of a rounding *)

Module Bounds.

Import F64 F64Facts.

Lemma pow2_le_inv (a b : Z) : pow2 a <= pow2 b -> (a <= b)%Z.
Proof.
  intros H. destruct (Z.le_gt_cases a b) as [L | L]; [exact L|].
  apply pow2_lt in L. lra.
Qed.

Lemma round_pos_error (x : Q) :
  0 < x ->
  x - pow2 (ilog2 x - 53) <= round_pos x
  /\ round_pos x <= x + pow2 (ilog2 x - 53).
Proof.
  intros Hx. unfold round_pos. set (e := ilog2 x).
  pose proof (pow2_pos (e - 52)) as P.
  destruct (rne_error (x * pow2 (52 - e))) as [L U].
  assert (I : pow2 (52 - e) * pow2 (e - 52) == 1).
  { rewrite <- pow2_add. replace (52 - e + (e - 52))%Z with 0%Z by ring.
    reflexivity. }
  assert (Hh : pow2 (e - 53) == (1 # 2) * pow2 (e - 52)).
  { assert (S : pow2 (e - 52) == 2 * pow2 (e - 53)).
    { rewrite <- pow2_succ. replace (e - 53 + 1)%Z with (e - 52)%Z by ring.
      reflexivity. }
    rewrite S. ring. }
  assert (X : x == x * pow2 (52 - e) * pow2 (e - 52)).
  { rewrite <- Qmult_assoc, I. ring. }
  split.
  - rewrite Hh. rewrite X at 1.
    setoid_replace (x * pow2 (52 - e) * pow2 (e - 52) - (1 # 2) * pow2 (e - 52))
      with ((x * pow2 (52 - e) - (1 # 2)) * pow2 (e - 52)) by ring.
    apply Qmult_le_r; assumption.
  - rewrite Hh. rewrite X at 2.
    setoid_replace (x * pow2 (52 - e) * pow2 (e - 52) + (1 # 2) * pow2 (e - 52))
      with ((x * pow2 (52 - e) + (1 # 2)) * pow2 (e - 52)) by ring.
    apply Qmult_le_r; assumption.
Qed.

Lemma round_pos_error_32 (x : Q) :
  0 < x -> x <= 4294967296 ->
  x - eps <= round_pos x /\ round_pos x <= x + eps.
Proof.
  intros Hx Hu. destruct (round_pos_error x Hx) as [L U].
  destruct (ilog2_spec x Hx) as [E1 _].
  assert (E : (ilog2 x <= 32)%Z).
  { apply pow2_le_inv. apply Qle_trans with (1 := E1).
    assert (P : pow2 32 == 4294967296) by reflexivity. rewrite P. exact Hu. }
  assert (B : pow2 (ilog2 x - 53) <= eps).
  { assert (P : pow2 (-21) == eps) by reflexivity. rewrite <- P.
    apply pow2_le. lia. }
  lra.
Qed.

(** Rounding moves a value of magnitude up to 2^32 by at most [eps]. *)
Lemma rnd_error (x : Q) :
  - (4294967296) <= x -> x <= 4294967296 ->
  x - eps <= rnd x /\ rnd x <= x + eps.
Proof.
  intros L U. destruct (Q_dec x 0) as [[N | P] | Z0].
  - rewrite (rnd_neg x N).
    destruct (round_pos_error_32 (- x)) as [A B]; lra.
  - rewrite (rnd_pos x P).
    destruct (round_pos_error_32 x) as [A B]; lra.
  - rewrite (rnd_zero x Z0). unfold eps. lra.
Qed.

Lemma lit_12 : lit 1.2 == 5404319552844595 # 4503599627370496.
Proof. vm_compute. reflexivity. Qed.

Lemma lit_14 : lit 1.4 == 3152519739159347 # 2251799813685248.
Proof. vm_compute. reflexivity. Qed.

Lemma lit_09 : lit 0.9 == 8106479329266893 # 9007199254740992.
Proof. vm_compute. reflexivity. Qed.

Lemma lit_08 : lit 0.8 == 3602879701896397 # 4503599627370496.
Proof. vm_compute. reflexivity. Qed.

Lemma lit_13 : lit 1.3 == 5854679515581645 # 4503599627370496.
Proof. vm_compute. reflexivity. Qed.

Lemma lit_15 : lit 1.5 == 3 # 2.
Proof. vm_compute. reflexivity. Qed.

Lemma lit_18 : lit 1.8 == 8106479329266893 # 4503599627370496.
Proof. vm_compute. reflexivity. Qed.

End Bounds.

(** * Where the landscape panel lies *)

Module LandscapeBounds.

Import F64 F64Facts Bounds.

Section Frame.

Variables W H : Z.
Hypothesis HW : (0 <= W < 2 ^ 31)%Z.
Hypothesis HH : (0 <= H < 2 ^ 31)%Z.

Let N : Q := inject_Z (W / 30).
Let WQ : Q := inject_Z W.
Let HQ : Q := inject_Z H.
Let OW : Q := inject_Z (3 * W / 10).

Lemma inject_Z_nonneg (z : Z) : (0 <= z)%Z -> 0 <= inject_Z z.
Proof. intros Hz. rewrite (Zle_Qle 0) in Hz. exact Hz. Qed.

Lemma frame_facts :
  0 <= N /\ 30 * N <= WQ /\ WQ <= 30 * N + 29
  /\ 0 <= WQ /\ WQ <= 2147483647
  /\ 0 <= HQ /\ HQ <= 2147483647
  /\ 10 * OW <= 3 * WQ /\ 3 * WQ <= 10 * OW + 9.
Proof.
  unfold N, WQ, HQ, OW.
  destruct (Geometry.inject_Z_div_mod W 30 ltac:(lia)) as (E & R1 & R2).
  destruct (Geometry.inject_Z_div_mod (3 * W) 10 ltac:(lia)) as (E' & R1' & R2').
  change (inject_Z 30) with 30 in E, R2.
  change (inject_Z 10) with 10 in E', R2'.
  rewrite inject_Z_mult in E'. change (inject_Z 3) with 3 in E'.
  assert (N0 : 0 <= inject_Z (W / 30)).
  { apply inject_Z_nonneg. apply Z.div_pos; lia. }
  assert (W0 : 0 <= inject_Z W) by (apply inject_Z_nonneg; lia).
  assert (W1 : inject_Z W <= 2147483647).
  { change 2147483647 with (inject_Z 2147483647). rewrite <- Zle_Qle. lia. }
  assert (H0 : 0 <= inject_Z H) by (apply inject_Z_nonneg; lia).
  assert (H1 : inject_Z H <= 2147483647).
  { change 2147483647 with (inject_Z 2147483647). rewrite <- Zle_Qle. lia. }
  repeat split; lra.
Qed.

Lemma base_eq : Landscape.baseFontSize W == N.
Proof. apply Geometry.baseFontSize_div. lia. Qed.

Lemma width_eq : Landscape.overlayWidth W == OW.
Proof. apply Geometry.overlayWidth_div. exact HW. Qed.

Lemma padding_near :
  (6 # 5) * N - 2 * eps <= Landscape.padding W
  /\ Landscape.padding W <= (6 # 5) * N + 2 * eps.
Proof.
  destruct frame_facts as (F1 & F2 & F3 & F4 & F5 & _).
  unfold Landscape.padding, mul. rewrite base_eq, lit_12.
  destruct (rnd_error (N * (5404319552844595 # 4503599627370496)))
    as [A B]; unfold eps in *; lra.
Qed.

Lemma header_near :
  (7 # 5) * N - 2 * eps <= Landscape.headerFontSize W
  /\ Landscape.headerFontSize W <= (7 # 5) * N + 2 * eps.
Proof.
  destruct frame_facts as (F1 & F2 & F3 & F4 & F5 & _).
  unfold Landscape.headerFontSize, mul. rewrite base_eq, lit_14.
  destruct (rnd_error (N * (3152519739159347 # 2251799813685248)))
    as [A B]; unfold eps in *; lra.
Qed.

Lemma label_near :
  (9 # 10) * N - 2 * eps <= Landscape.labelFontSize W
  /\ Landscape.labelFontSize W <= (9 # 10) * N + 2 * eps.
Proof.
  destruct frame_facts as (F1 & F2 & F3 & F4 & F5 & _).
  unfold Landscape.labelFontSize, mul. rewrite base_eq, lit_09.
  destruct (rnd_error (N * (8106479329266893 # 9007199254740992)))
    as [A B]; unfold eps in *; lra.
Qed.

Lemma spacing_eq : Landscape.itemSpacing W == (5 # 2) * N.
Proof. apply Geometry.itemSpacing_exact. lia. Qed.

Lemma height_near :
  (69 # 5) * N - 16 * eps <= Landscape.overlayHeight W
  /\ Landscape.overlayHeight W <= (69 # 5) * N + 16 * eps.
Proof.
  destruct frame_facts as (F1 & F2 & F3 & F4 & F5 & _).
  destruct padding_near as [P1 P2]. destruct header_near as [H1 H2].
  unfold Landscape.overlayHeight, add, mul. rewrite spacing_eq.
  set (pad := Landscape.padding W) in *.
  set (hdr := Landscape.headerFontSize W) in *.
  destruct (rnd_error (pad * 2)) as [A1 A2]; [unfold eps in *; lra ..|].
  destruct (rnd_error (rnd (pad * 2) + hdr)) as [B1 B2];
    [unfold eps in *; lra ..|].
  destruct (rnd_error ((5 # 2) * N * 4)) as [C1 C2]; [unfold eps in *; lra ..|].
  destruct (rnd_error (rnd (rnd (pad * 2) + hdr) + rnd ((5 # 2) * N * 4)))
    as [D1 D2]; unfold eps in *; lra.
Qed.

Lemma padding_between :
  N <= Landscape.padding W /\ Landscape.padding W <= (5 # 4) * N.
Proof.
  destruct frame_facts as (F1 & F2 & F3 & F4 & F5 & _).
  assert (HN : (0 <= W / 30 < 2 ^ 31)%Z).
  { split; [apply Z.div_pos; lia | apply Z.div_lt_upper_bound; lia]. }
  unfold Landscape.padding, mul. rewrite base_eq, lit_12.
  assert (L : rnd N == N) by (apply rnd_Z; lia).
  assert (U : rnd ((5 # 4) * N) == (5 # 4) * N).
  { apply (rnd_exact _ (5 * (W / 30)) (-2)); [lia|].
    assert (E : pow2 (-2) == 1 # 4) by reflexivity.
    unfold N. rewrite E, inject_Z_mult. change (inject_Z 5) with 5. field. }
  split.
  - rewrite <- L at 1. apply rnd_mono. lra.
  - rewrite <- U. apply rnd_mono. lra.
Qed.

(** The panel between the left and the right edge of the raster. *)
Lemma panel_across :
  0 <= Landscape.overlayX W
  /\ Landscape.overlayX W + Landscape.overlayWidth W <= WQ
  /\ 0 <= Landscape.overlayWidth W.
Proof.
  destruct frame_facts as (F1 & F2 & F3 & F4 & F5 & F6 & F7 & F8 & F9).
  destruct padding_between as [P1 P2].
  assert (O0 : 0 <= OW).
  { unfold OW. apply inject_Z_nonneg. apply Z.div_pos; lia. }
  assert (D : rnd (WQ - OW) == WQ - OW).
  { unfold WQ, OW, Qminus. rewrite <- inject_Z_opp, <- inject_Z_plus.
    apply rnd_Z.
    assert (0 <= 3 * W / 10 <= W)%Z; [|lia].
    split; [apply Z.div_pos; lia | apply Z.div_le_upper_bound; lia]. }
  assert (Z0 : rnd 0 == 0) by (apply rnd_zero; reflexivity).
  unfold Landscape.overlayX, sub, of_Z. rewrite width_eq. fold WQ.
  rewrite D. set (pad := Landscape.padding W) in *.
  split; [|split].
  - rewrite <- Z0 at 1. apply rnd_mono. lra.
  - assert (M : rnd (WQ - OW - pad) <= rnd (WQ - OW)) by (apply rnd_mono; lra).
    rewrite D in M. lra.
  - exact O0.
Qed.

(** The top of the panel, up to two roundings. *)
Lemma panel_top_near :
  HQ - Landscape.overlayHeight W - Landscape.padding W - 2 * eps
  <= Landscape.overlayY W H
  /\ Landscape.overlayY W H
     <= HQ - Landscape.overlayHeight W - Landscape.padding W + 2 * eps.
Proof.
  destruct frame_facts as (F1 & F2 & F3 & F4 & F5 & F6 & F7 & _).
  destruct padding_near as [P1 P2]. destruct height_near as [H1 H2].
  unfold Landscape.overlayY, sub, of_Z. fold HQ.
  set (pad := Landscape.padding W) in *.
  set (oh := Landscape.overlayHeight W) in *.
  destruct (rnd_error (HQ - oh)) as [A1 A2]; [unfold eps in *; lra ..|].
  destruct (rnd_error (rnd (HQ - oh) - pad)) as [B1 B2];
    unfold eps in *; lra.
Qed.

Ltac near x name :=
  let A := fresh "A" name in
  assert (A : x - eps <= rnd x /\ rnd x <= x + eps)
    by (apply rnd_error; rewrite ?lit_12, ?lit_13, ?lit_14, ?lit_08;
        unfold eps in *; lra);
  set (name := rnd x) in *;
  rewrite ?lit_12, ?lit_13, ?lit_14, ?lit_08 in A.

(** A point of the panel. *)
Let in_panel (xy : Q * Q) : Prop :=
  Landscape.overlayX W <= fst xy
  /\ fst xy <= Landscape.overlayX W + Landscape.overlayWidth W
  /\ Landscape.overlayY W H <= snd xy
  /\ snd xy <= Landscape.overlayY W H + Landscape.overlayHeight W.

Lemma landscape_places (t : Overlay) :
  text_places (Landscape.draw W H t)
  = [ (Landscape.overlayX W +! Landscape.overlayWidth W /! 2,
       Landscape.headerY W H +! Landscape.headerFontSize W *! lit 0.8);
      (Landscape.labelX W,
       Landscape.firstRowY W H +! Landscape.labelFontSize W *! lit 1.4);
      (Landscape.valueX W,
       Landscape.firstRowY W H +! Landscape.valueFontSize W *! lit 1.4);
      (Landscape.labelX W,
       Landscape.firstRowY W H +! Landscape.itemSpacing W
       +! Landscape.labelFontSize W *! lit 1.4);
      (Landscape.valueX W,
       Landscape.firstRowY W H +! Landscape.itemSpacing W
       +! Landscape.valueFontSize W *! lit 1.4);
      (Landscape.labelX W,
       Landscape.firstRowY W H +! Landscape.itemSpacing W
       +! Landscape.itemSpacing W +! Landscape.labelFontSize W *! lit 1.4);
      (Landscape.valueX W,
       Landscape.firstRowY W H +! Landscape.itemSpacing W
       +! Landscape.itemSpacing W +! Landscape.valueFontSize W *! lit 1.4);
      (Landscape.labelX W,
       Landscape.firstRowY W H +! Landscape.itemSpacing W
       +! Landscape.itemSpacing W +! Landscape.itemSpacing W
       +! Landscape.labelFontSize W *! lit 1.4);
      (Landscape.valueX W,
       Landscape.firstRowY W H +! Landscape.itemSpacing W
       +! Landscape.itemSpacing W +! Landscape.itemSpacing W
       +! Landscape.valueFontSize W *! lit 1.4) ].
Proof. reflexivity. Qed.

(** Every text of the panel is anchored inside the panel. *)
Lemma content_in_panel (t : Overlay) :
  (1 <= W / 30)%Z ->
  Forall in_panel (text_places (Landscape.draw W H t)).
Proof.
  intros HN. rewrite landscape_places.
  destruct frame_facts as (F1 & F2 & F3 & F4 & F5 & F6 & F7 & F8 & F9).
  assert (QN : 1 <= N) by (unfold N; rewrite Zle_Qle in HN; exact HN).
  destruct padding_near as [P1 P2]. destruct header_near as [D1 D2].
  destruct label_near as [L1 L2]. destruct height_near as [G1 G2].
  destruct panel_across as (X1 & X2 & X3). destruct panel_top_near as [Y1 Y2].
  pose proof width_eq as EW. pose proof spacing_eq as ES.
  unfold Landscape.valueFontSize.
  fold (Landscape.labelFontSize W).
  unfold in_panel, Landscape.labelX, Landscape.valueX, Landscape.rowPadding,
    Landscape.firstRowY, Landscape.headerY, add, sub, mul, div.
  set (pad := Landscape.padding W) in *.
  set (hdr := Landscape.headerFontSize W) in *.
  set (lab := Landscape.labelFontSize W) in *.
  set (oh := Landscape.overlayHeight W) in *.
  set (ow := Landscape.overlayWidth W) in *.
  set (ox := Landscape.overlayX W) in *.
  set (oy := Landscape.overlayY W H) in *.
  set (sp := Landscape.itemSpacing W) in *.
  near (pad * lit 1.2) t1.
  near (oy + t1) hy.
  near (hdr * lit 0.8) t2.
  near (hy + t2) hb.
  near (pad * lit 1.3) t3.
  near (hdr + t3) t4.
  near (hy + t4) fr.
  near (fr + sp) r2.
  near (r2 + sp) r3.
  near (r3 + sp) r4.
  near (lab * lit 1.4) t5.
  near (fr + t5) b1.
  near (r2 + t5) b2.
  near (r3 + t5) b3.
  near (r4 + t5) b4.
  assert (Ehw : ow / 2 == ow * (1 # 2)) by field.
  near (ow / 2) hw.
  near (ox + hw) cx.
  near (pad * lit 0.8) rp.
  near (ox + rp) lx.
  near (ox + ow) xr.
  near (xr - rp) vx.
  repeat constructor; cbn [fst snd]; unfold eps in *; lra.
Qed.

End Frame.

End LandscapeBounds.

Lemma landscape_draws_panel (p : Page) :
  (height (video p) < width (video p))%Z ->
  In (FillRect (Landscape.overlayX (width (video p)))
               (Landscape.overlayY (width (video p)) (height (video p)))
               (Landscape.overlayWidth (width (video p)))
               (Landscape.overlayHeight (width (video p))))
     (snd (capturePhoto p)).
Proof.
  intros HL. apply Z.ltb_lt in HL. unfold capturePhoto, isLandscape.
  rewrite HL. cbn [snd]. right. right. right. left. reflexivity.
Qed.

(** X14. On a landscape frame at least 30 pixels wide whose height
    exceeds 15 times the base font size, the base font size being
    floor(width / 30), the panel that [capturePhoto] fills lies wholly
    inside the raster.  Frames of ratio 16:9 and 4:3 are of this kind. *)
Theorem landscape_panel_inside (p : Page) :
  let W := width (video p) in
  let H := height (video p) in
  (30 <= W < 2 ^ 31)%Z ->
  (15 * (W / 30) + 1 <= H)%Z ->
  (H < W)%Z ->
  In (FillRect (Landscape.overlayX W) (Landscape.overlayY W H)
               (Landscape.overlayWidth W) (Landscape.overlayHeight W))
     (snd (capturePhoto p))
  /\ 0 <= Landscape.overlayWidth W
  /\ 0 <= Landscape.overlayHeight W
  /\ inside W H (Landscape.overlayX W) (Landscape.overlayY W H)
            (Landscape.overlayWidth W) (Landscape.overlayHeight W).
Proof.
  intros W H HW HA HL.
  assert (HW' : (0 <= W < 2 ^ 31)%Z) by lia.
  assert (HN : (1 <= W / 30)%Z) by (apply Z.div_le_lower_bound; lia).
  assert (HH : (0 <= H < 2 ^ 31)%Z) by lia.
  destruct (LandscapeBounds.frame_facts W H HW' HH)
    as (F1 & F2 & F3 & F4 & F5 & F6 & F7 & _).
  destruct (LandscapeBounds.panel_across W H HW' HH) as (X1 & X2 & X3).
  destruct (LandscapeBounds.panel_top_near W H HW' HH) as [Y1 Y2].
  destruct (LandscapeBounds.padding_near W H HW' HH) as [P1 P2].
  destruct (LandscapeBounds.height_near W H HW' HH) as [H1 H2].
  assert (QA : 15 * inject_Z (W / 30) + 1 <= inject_Z H).
  { rewrite Zle_Qle in HA. rewrite inject_Z_plus, inject_Z_mult in HA.
    exact HA. }
  assert (QN : 1 <= inject_Z (W / 30)) by (rewrite Zle_Qle in HN; exact HN).
  split; [apply landscape_draws_panel; exact HL|].
  split; [exact X3|].
  split; [unfold eps in *; lra|].
  unfold inside. repeat split; unfold eps in *; lra.
Qed.

(** A frame of 1920 by 1080. *)
Lemma landscape_panel_inside_1920x1080 :
  let p := initialPage (mkSize 1920 1080) in
  In (FillRect (Landscape.overlayX 1920) (Landscape.overlayY 1920 1080)
               (Landscape.overlayWidth 1920) (Landscape.overlayHeight 1920))
     (snd (capturePhoto p))
  /\ 0 <= Landscape.overlayWidth 1920
  /\ 0 <= Landscape.overlayHeight 1920
  /\ inside 1920 1080 (Landscape.overlayX 1920) (Landscape.overlayY 1920 1080)
            (Landscape.overlayWidth 1920) (Landscape.overlayHeight 1920).
Proof.
  apply (landscape_panel_inside (initialPage (mkSize 1920 1080)));
    cbn [video initialPage width height]; try lia.
  change (1920 / 30)%Z with 64%Z. lia.
Defined.

(** X15. On a frame whose height is below 15 times the base font size,
    as on every frame wider than about twice its height, the panel starts
    above the top edge of the raster: [capturePhoto] fills a rectangle
    with a negative ordinate, and nothing clamps it. *)
Theorem landscape_panel_cut (p : Page) :
  let W := width (video p) in
  let H := height (video p) in
  (0 <= W < 2 ^ 31)%Z ->
  (0 <= H)%Z ->
  (H + 1 <= 15 * (W / 30))%Z ->
  In (FillRect (Landscape.overlayX W) (Landscape.overlayY W H)
               (Landscape.overlayWidth W) (Landscape.overlayHeight W))
     (snd (capturePhoto p))
  /\ Landscape.overlayY W H < 0.
Proof.
  intros W H HW H0 HA.
  assert (HD : (30 * (W / 30) <= W)%Z) by (apply Z.mul_div_le; lia).
  assert (HH : (0 <= H < 2 ^ 31)%Z) by lia.
  destruct (LandscapeBounds.panel_top_near W H HW HH) as [Y1 Y2].
  destruct (LandscapeBounds.padding_near W H HW HH) as [P1 P2].
  destruct (LandscapeBounds.height_near W H HW HH) as [H1 H2].
  assert (QA : inject_Z H + 1 <= 15 * inject_Z (W / 30)).
  { rewrite Zle_Qle in HA. rewrite inject_Z_plus, inject_Z_mult in HA.
    exact HA. }
  split; [apply landscape_draws_panel; fold W H; lia|].
  unfold eps in *. lra.
Qed.

(** A frame of 3840 by 1080. *)
Lemma landscape_panel_cut_3840x1080 :
  let p := initialPage (mkSize 3840 1080) in
  In (FillRect (Landscape.overlayX 3840) (Landscape.overlayY 3840 1080)
               (Landscape.overlayWidth 3840) (Landscape.overlayHeight 3840))
     (snd (capturePhoto p))
  /\ Landscape.overlayY 3840 1080 < 0.
Proof.
  apply (landscape_panel_cut (initialPage (mkSize 3840 1080)));
    cbn [video initialPage width height]; try lia.
  change (3840 / 30)%Z with 128%Z. lia.
Defined.

Lemma text_places_framed (a b c : list CanvasOp) :
  text_places a = [] -> text_places c = [] ->
  text_places (a ++ b ++ c)%list = text_places b.
Proof.
  intros Ha Hc. unfold text_places in *.
  rewrite !flat_map_app, Ha, Hc, app_nil_r. reflexivity.
Qed.

(** X16. On a landscape frame at least 30 pixels wide every text of the
    overlay, the header, the four labels and the four values, is
    anchored inside the panel rectangle, whatever the height of the
    frame. *)
Theorem landscape_texts_in_panel (p : Page) :
  let W := width (video p) in
  let H := height (video p) in
  (30 <= W < 2 ^ 31)%Z ->
  (0 <= H)%Z ->
  (H < W)%Z ->
  List.length (text_places (snd (capturePhoto p))) = 9%nat
  /\ Forall (in_rect (Landscape.overlayX W) (Landscape.overlayY W H)
                     (Landscape.overlayWidth W) (Landscape.overlayHeight W))
            (text_places (snd (capturePhoto p))).
Proof.
  intros W H HW H0 HL.
  assert (E : text_places (snd (capturePhoto p))
              = text_places (Landscape.draw W H (texts p))).
  { apply Z.ltb_lt in HL. unfold capturePhoto, isLandscape. fold W H.
    rewrite HL. cbn [snd texts set_canvas].
    apply text_places_framed; reflexivity. }
  rewrite E. split.
  - rewrite LandscapeBounds.landscape_places. reflexivity.
  - apply LandscapeBounds.content_in_panel; try lia.
    apply Z.div_le_lower_bound; lia.
Qed.

(** A frame of 1920 by 1080. *)
Lemma landscape_texts_in_panel_1920x1080 :
  let p := initialPage (mkSize 1920 1080) in
  List.length (text_places (snd (capturePhoto p))) = 9%nat
  /\ Forall (in_rect (Landscape.overlayX 1920) (Landscape.overlayY 1920 1080)
                     (Landscape.overlayWidth 1920)
                     (Landscape.overlayHeight 1920))
            (text_places (snd (capturePhoto p))).
Proof.
  apply (landscape_texts_in_panel (initialPage (mkSize 1920 1080)));
    cbn [video initialPage width height]; lia.
Defined.

(** * Where the portrait band lies *)

Module PortraitBounds.

Import F64 F64Facts Bounds.

Ltac near x name :=
  let A := fresh "A" name in
  assert (A : x - eps <= rnd x /\ rnd x <= x + eps)
    by (apply rnd_error; rewrite ?lit_12, ?lit_15, ?lit_18, ?lit_08;
        unfold eps in *; lra);
  set (name := rnd x) in *;
  rewrite ?lit_12, ?lit_15, ?lit_18, ?lit_08 in A.

Section Frame.

Variable W : Z.
Hypothesis HW : (25 <= W < 2 ^ 31)%Z.

Let N : Q := inject_Z (W / 25).
Let WQ : Q := inject_Z W.

Lemma font_facts : 1 <= N /\ 25 * N <= WQ /\ WQ <= 2147483647.
Proof.
  unfold N, WQ.
  destruct (Geometry.inject_Z_div_mod W 25 ltac:(lia)) as (E & R1 & R2).
  change (inject_Z 25) with 25 in E, R2.
  assert (N1 : (1 <= W / 25)%Z) by (apply Z.div_le_lower_bound; lia).
  rewrite Zle_Qle in N1.
  assert (W1 : inject_Z W <= 2147483647).
  { change 2147483647 with (inject_Z 2147483647). rewrite <- Zle_Qle. lia. }
  repeat split; [exact N1 | lra | exact W1].
Qed.

Lemma font_eq : Portrait.fontSize W == N.
Proof. apply Geometry.fontSize_div. lia. Qed.

(** The band is eight font sizes high, exactly. *)
Lemma band_height : Portrait.fontSize W *! 8 == inject_Z (8 * (W / 25)).
Proof.
  unfold mul. rewrite font_eq. unfold N.
  assert (E : inject_Z (W / 25) * 8 == inject_Z (8 * (W / 25))).
  { rewrite inject_Z_mult. change (inject_Z 8) with 8. ring. }
  rewrite E. apply rnd_Z.
  assert (0 <= W / 25 < 2 ^ 31)%Z; [|lia].
  split; [apply Z.div_pos; lia | apply Z.div_lt_upper_bound; lia].
Qed.

Lemma portrait_places (t : Overlay) :
  text_places (Portrait.draw W t)
  = [ (Portrait.padding W, Portrait.y0 W);
      (Portrait.padding W, Portrait.y1 W);
      (Portrait.padding W, Portrait.y2 W);
      (Portrait.padding W, Portrait.y3 W);
      (Portrait.padding W, Portrait.y4 W) ].
Proof. reflexivity. Qed.

(** The margin and the five baselines, in order, inside the band. *)
Lemma baselines :
  0 < Portrait.padding W /\ Portrait.padding W < WQ
  /\ 0 < Portrait.y0 W
  /\ Portrait.y0 W < Portrait.y1 W
  /\ Portrait.y1 W < Portrait.y2 W
  /\ Portrait.y2 W < Portrait.y3 W
  /\ Portrait.y3 W < Portrait.y4 W
  /\ Portrait.y4 W < inject_Z (8 * (W / 25)).
Proof.
  destruct font_facts as (F1 & F2 & F3). pose proof font_eq as EF.
  assert (E8 : inject_Z (8 * (W / 25)) == 8 * N).
  { unfold N. rewrite inject_Z_mult. reflexivity. }
  rewrite E8.
  unfold Portrait.y4, Portrait.y3, Portrait.y2, Portrait.y1, Portrait.y0,
    Portrait.padding, add, mul.
  set (fs := Portrait.fontSize W) in *.
  near (fs * lit 0.8) pad.
  near (fs * lit 1.5) y0.
  near (fs * lit 1.8) t18.
  near (y0 + t18) y1.
  near (fs * lit 1.2) t12.
  near (y1 + t12) y2.
  near (y2 + t12) y3.
  near (y3 + t12) y4.
  repeat split; unfold eps in *; lra.
Qed.

End Frame.

End PortraitBounds.

Lemma portrait_draws_band (p : Page) :
  (width (video p) <= height (video p))%Z ->
  In (FillRect 0 0 (F64.of_Z (width (video p)))
               (Portrait.fontSize (width (video p)) *! 8))
     (snd (capturePhoto p)).
Proof.
  intros HL. apply Z.ltb_ge in HL. unfold capturePhoto, isLandscape.
  rewrite HL. cbn [snd]. right. right. right. left. reflexivity.
Qed.

(** X17. On a portrait or square frame at least 25 pixels wide the dark
    band spans the full width from the top edge, is exactly eight font
    sizes high, the font size being floor(width / 25), and fits in the
    raster; the five texts start at the same margin inside the frame, on
    baselines that go strictly downwards and all lie within the band. *)
Theorem portrait_texts_in_band (p : Page) :
  let W := width (video p) in
  let H := height (video p) in
  let band := Portrait.fontSize W *! 8 in
  (25 <= W < 2 ^ 31)%Z ->
  (W <= H)%Z ->
  In (FillRect 0 0 (F64.of_Z W) band) (snd (capturePhoto p))
  /\ band == inject_Z (8 * (W / 25))
  /\ band <= inject_Z H
  /\ text_places (snd (capturePhoto p))
     = [ (Portrait.padding W, Portrait.y0 W);
         (Portrait.padding W, Portrait.y1 W);
         (Portrait.padding W, Portrait.y2 W);
         (Portrait.padding W, Portrait.y3 W);
         (Portrait.padding W, Portrait.y4 W) ]
  /\ 0 < Portrait.padding W /\ Portrait.padding W < inject_Z W
  /\ 0 < Portrait.y0 W
  /\ Portrait.y0 W < Portrait.y1 W
  /\ Portrait.y1 W < Portrait.y2 W
  /\ Portrait.y2 W < Portrait.y3 W
  /\ Portrait.y3 W < Portrait.y4 W
  /\ Portrait.y4 W < band.
Proof.
  intros W H band HW HL.
  pose proof (PortraitBounds.band_height W HW) as EB. fold band in EB.
  split; [apply portrait_draws_band; exact HL|].
  split; [exact EB|].
  split.
  { rewrite EB, <- Zle_Qle.
    assert (25 * (W / 25) <= W)%Z by (apply Z.mul_div_le; lia).
    assert (0 <= W / 25)%Z by (apply Z.div_pos; lia). lia. }
  split.
  { apply Z.ltb_ge in HL. unfold capturePhoto, isLandscape. fold W H.
    rewrite HL. cbn [snd texts set_canvas].
    rewrite text_places_framed; [apply PortraitBounds.portrait_places | |];
      reflexivity. }
  rewrite EB. apply PortraitBounds.baselines. exact HW.
Qed.

(** A frame of 1080 by 1920. *)
Lemma portrait_texts_in_band_1080x1920 :
  let p := initialPage (mkSize 1080 1920) in
  let band := Portrait.fontSize 1080 *! 8 in
  In (FillRect 0 0 (F64.of_Z 1080) band) (snd (capturePhoto p))
  /\ band == inject_Z (8 * (1080 / 25))
  /\ band <= inject_Z 1920
  /\ text_places (snd (capturePhoto p))
     = [ (Portrait.padding 1080, Portrait.y0 1080);
         (Portrait.padding 1080, Portrait.y1 1080);
         (Portrait.padding 1080, Portrait.y2 1080);
         (Portrait.padding 1080, Portrait.y3 1080);
         (Portrait.padding 1080, Portrait.y4 1080) ]
  /\ 0 < Portrait.padding 1080 /\ Portrait.padding 1080 < inject_Z 1080
  /\ 0 < Portrait.y0 1080
  /\ Portrait.y0 1080 < Portrait.y1 1080
  /\ Portrait.y1 1080 < Portrait.y2 1080
  /\ Portrait.y2 1080 < Portrait.y3 1080
  /\ Portrait.y3 1080 < Portrait.y4 1080
  /\ Portrait.y4 1080 < band.
Proof.
  apply (portrait_texts_in_band (initialPage (mkSize 1080 1920)));
    cbn [video initialPage width height]; lia.
Defined.
